(** * PESC: Pseudorandom Encryption with Shuffling and Coding

    A shallow embedding of [pesc.c] and the properties of its generator,
    its exchange table, its shuffle and coding passes and its rounds.

    Conventions of the embedding.
    - [uint32_t] values are integers reduced with [wrap32]; [size_t] values
      are integers reduced with [wrapsz] (an LP64 target: 64 bits,
      [sizeof(size_t) = 8]).
    - A [char] is its 8-bit pattern, a [Byte.byte]; sums and differences of
      chars are reduced modulo 256, which is what the conversions back to
      [char] do whether [char] is signed or not.
    - The global [seed] is passed in and returned explicitly.
    - Array accesses are checked: a function returns [Err e] where the C
      program has no defined behaviour (division by zero, a null or
      out-of-range access) or calls [exit(EXIT_FAILURE)].
    - [free] changes no result and is left out.
    - A loop is given as fuel the number of iterations its counter
      allows, so it never stops for lack of fuel; the fuel of a counter
      that starts at [SIZE_MAX] is only built on demand, by [lazy]
      evaluation. *)

From Stdlib Require Import ZArith Lia Ascii Strings.Byte.
From stdpp Require Import base list list_numbers.

Local Open Scope Z_scope.

(** ** Machine integers *)

Definition wrap32 (z : Z) : Z := z mod 2 ^ 32.
Definition wrapsz (z : Z) : Z := z mod 2 ^ 64.
Definition sizeof_size_t : Z := 8.
Definition PTRDIFF_MAX : Z := 2 ^ 63 - 1.

(** [char] arithmetic on bit patterns. *)
Definition Z_of_char (b : byte) : Z := Z.of_N (Byte.to_N b).
Definition char_of_Z (z : Z) : byte :=
  match Byte.of_N (Z.to_N (z mod 256)) with
  | Some b => b
  | None => x00
  end.

(** ** Outcomes *)

Inductive error : Type :=
  | DivByZero      (* the right operand of [%] is zero *)
  | NullDeref      (* access through the null pointer *)
  | OutOfBounds    (* access outside the object *)
  | UninitRead     (* read of a cell [malloc] left indeterminate *)
  | BadKeyChar     (* "Unsupported character in key", [exit(EXIT_FAILURE)] *)
  | OutOfFuel.     (* the loop counter outlived the iteration bound *)

Inductive result (A : Type) : Type :=
  | Ok (a : A)
  | Err (e : error).
Arguments Ok {A} a.
Arguments Err {A} e.

#[export] Instance result_ret : MRet result := @Ok.
#[export] Instance result_bind : MBind result := fun A B f m =>
  match m with
  | Ok a => f a
  | Err e => Err e
  end.

(** ** Arrays *)

(** [a[i]] as an rvalue. *)
Definition load {A : Type} (a : list A) (i : Z) : result A :=
  if i <? 0 then Err OutOfBounds
  else match a !! Z.to_nat i with
       | Some x => Ok x
       | None => Err OutOfBounds
       end.

(** [a[i] = x]. *)
Definition store {A : Type} (a : list A) (i : Z) (x : A) : result (list A) :=
  if i <? 0 then Err OutOfBounds
  else match a !! Z.to_nat i with
       | Some _ => Ok (<[Z.to_nat i := x]> a)
       | None => Err OutOfBounds
       end.

(** A [size_t*] returned by [malloc]: the null pointer, or a block of
    cells, each indeterminate ([None]) until it is written. *)
Definition size_t_ptr : Type := option (list (option Z)).

(** [malloc(bytes)] for a block of [size_t]: a request above
    [PTRDIFF_MAX] fails; any other request is assumed to be served. *)
Definition malloc (bytes : Z) : size_t_ptr :=
  if PTRDIFF_MAX <? bytes then None
  else Some (replicate (Z.to_nat (bytes / sizeof_size_t)) None).

Definition load_cell (p : size_t_ptr) (i : Z) : result Z :=
  match p with
  | None => Err NullDeref
  | Some cells =>
      c ← load cells i;
      match c with
      | Some v => Ok v
      | None => Err UninitRead
      end
  end.

Definition store_cell (p : size_t_ptr) (i : Z) (v : Z) : result size_t_ptr :=
  match p with
  | None => Err NullDeref
  | Some cells => cells ← store cells i (Some v); Ok (Some cells)
  end.

(** [a % b] on unsigned operands. *)
Definition umod (a b : Z) : result Z :=
  if b =? 0 then Err DivByZero else Ok (a mod b).

(** ** Loops *)

(** [for (size_t i = start; i > 0; i--) body], entered with [i = start]. *)
Fixpoint for_down {St : Type} (fuel : nat) (i : Z)
    (body : Z → St → result St) (s : St) : result St :=
  match fuel with
  | O => if 0 <? i then Err OutOfFuel else Ok s
  | S fuel =>
      if 0 <? i then s ← body i s; for_down fuel (wrapsz (i - 1)) body s
      else Ok s
  end.

(** [for (size_t i = start; i < stop; i++) body], entered with [i = start]. *)
Fixpoint for_up {St : Type} (fuel : nat) (i stop : Z)
    (body : Z → St → result St) (s : St) : result St :=
  match fuel with
  | O => if i <? stop then Err OutOfFuel else Ok s
  | S fuel =>
      if i <? stop then s ← body i s; for_up fuel (wrapsz (i + 1)) stop body s
      else Ok s
  end.

(** [for (size_t i = start; i--;) body]: the test reads [i] and decrements
    it, the body sees the decremented value. *)
Fixpoint for_postdec {St : Type} (fuel : nat) (i : Z)
    (body : Z → St → result St) (s : St) : result St :=
  match fuel with
  | O => if i =? 0 then Ok s else Err OutOfFuel
  | S fuel =>
      if i =? 0 then Ok s
      else let i := wrapsz (i - 1) in
           s ← body i s; for_postdec fuel i body s
  end.

(** The iterations of a loop, listed: [mfold body [i1; ...; ik]] runs
    the body at [i1], ..., [ik] in that order and stops at the first
    error.  The three loops above are instances (lemmas [for_up_mfold],
    [for_down_mfold] and [for_postdec_mfold]). *)
Fixpoint mfold {St : Type} (body : Z → St → result St) (l : list Z) (s : St)
    : result St :=
  match l with
  | [] => Ok s
  | i :: l => s ← body i s; mfold body l s
  end.

(** ** Key strings *)

(** [__BYTE_ORDER__], fixed when the program is compiled. *)
Inductive byte_order : Type := LittleEndian | BigEndian.

Definition char_code (c : ascii) : Z := Z.of_N (N_of_ascii c).

(** [str[i]] in a NUL-terminated string. *)
Definition load_str (str : list ascii) (i : Z) : result ascii :=
  load (str ++ [Ascii.zero]) i.

(** The shift count of the branch of the [#if] that is compiled. *)
Definition nibble_shift (order : byte_order) (i : Z) : Z :=
  match order with
  | BigEndian => wrapsz ((7 - i) * 4)
  | LittleEndian => wrapsz (i * 4)
  end.

(** Body of the loop of [HexToUInt32].  The shifted digit is an [int];
    added to the [uint32_t] accumulator it counts modulo [2^32], also
    where a digit above 7 is shifted into the sign bit. *)
Definition HexToUInt32_body (order : byte_order) (str : list ascii)
    (start i v : Z) : result Z :=
  tmp ← load_str str (wrapsz (start + i));
  let tmp := char_code tmp in
  if (char_code "A" <=? tmp) && (tmp <=? char_code "F") then
    Ok (wrap32 (v + Z.shiftl (tmp - char_code "A" + 10) (nibble_shift order i)))
  else if (char_code "a" <=? tmp) && (tmp <=? char_code "f") then
    Ok (wrap32 (v + Z.shiftl (tmp - char_code "a" + 10) (nibble_shift order i)))
  else if (char_code "0" <=? tmp) && (tmp <=? char_code "9") then
    Ok (wrap32 (v + Z.shiftl (tmp - char_code "0") (nibble_shift order i)))
  else Err BadKeyChar.

Definition HexToUInt32 (order : byte_order) (str : list ascii) (start : Z)
    : result Z :=
  for_up 8 0 8 (HexToUInt32_body order str start) 0.

(** The value of a hexadecimal digit. *)
Definition hex_digit_value (c : ascii) : option Z :=
  let n := char_code c in
  if (48 <=? n) && (n <=? 57) then Some (n - 48)
  else if (65 <=? n) && (n <=? 70) then Some (n - 55)
  else if (97 <=? n) && (n <=? 102) then Some (n - 87)
  else None.

(** The number a list of digit values writes, first digit most
    significant, and first digit least significant. *)
Definition msd_first (ds : list Z) : Z := fold_left (λ acc d, 16 * acc + d) ds 0.
Definition lsd_first (ds : list Z) : Z := fold_right (λ d acc, d + 16 * acc) 0 ds.

(** ** The generator *)

Definition RAND_MAX : Z := 65534.

Section Pesc.

(** The literal of line 34, [0F1F2F3F4], is not a C constant (the
    initialiser of line 28 reads [0xF1F2F3F4]); its value is a parameter
    of the development. *)
Variable ZERO_SEED : Z.

(** Line 34: [if(seed == 0) seed = ZERO_SEED;] *)
Definition replace_zero_seed (seed : Z) : Z :=
  if seed =? 0 then wrap32 ZERO_SEED else seed.

(** Line 35: the initial value of the [uint32_t] accumulator [v]. *)
Definition schrage (seed : Z) : Z :=
  wrap32 (wrap32 (16807 * (seed mod 127773))
          - wrap32 (2836 * (seed / 127773))).

(** [random()] on the seed [seed]: the value returned and the new seed. *)
Definition random (seed : Z) : Z * Z :=
  let seed := replace_zero_seed seed in
  let v := schrage seed in
  let v := if v <? 0 then wrap32 (v + 2147483647) else v in
  (v mod wrap32 (RAND_MAX + 1), v).

(** The step of the specification (section 4.1), in unbounded integers:
    [v = 16807*(Seed mod 127773) - 2836*(Seed div 127773)]; if this value
    is negative, add 2147483647; Seed becomes that value and
    [Seed mod 65535] is returned. *)
Definition spec_next (seed : Z) : Z * Z :=
  let v := 16807 * (seed mod 127773) - 2836 * (seed / 127773) in
  let v := if v <? 0 then v + 2147483647 else v in
  (v mod 65535, v).

(** The values of [k] successive calls of [random()], and the seed they
    leave. *)
Fixpoint draws (k : nat) (seed : Z) : list Z :=
  match k with
  | O => []
  | S k => let '(r, seed) := random seed in r :: draws k seed
  end.

Fixpoint seed_after (k : nat) (seed : Z) : Z :=
  match k with
  | O => seed
  | S k => seed_after k (snd (random seed))
  end.

(** ** The exchange table *)

(** Body of the loop of [GenExchangeTable]:
    [exTable[len - 1 - i] = random() % (i + 1);] *)
Definition GenExchangeTable_body (len i : Z) (s : size_t_ptr * Z)
    : result (size_t_ptr * Z) :=
  let '(exTable, seed) := s in
  let '(r, seed) := random seed in
  v ← umod r (wrapsz (i + 1));
  exTable ← store_cell exTable (wrapsz (wrapsz (len - 1) - i)) v;
  Ok (exTable, seed).

Definition GenExchangeTable (len seed : Z) : result (size_t_ptr * Z) :=
  let exTable := malloc (wrapsz (wrapsz (len - 1) * sizeof_size_t)) in
  let start := wrapsz (len - 1) in
  for_down (Z.to_nat start) start (GenExchangeTable_body len) (exTable, seed).

(** The table section 4.2 of the specification describes for a buffer of
    [n] bytes: entry [j] is the [j]-th draw modulo [n - j]. *)
Definition exchange_entries (n seed : Z) : list Z :=
  imap (λ j r, r mod (n - Z.of_nat j)) (draws (Z.to_nat (n - 1)) seed).

(** What the loops of [Shuffle] and [DeShuffle] need of a table [E] for a
    buffer of [len] bytes: [len - 1] entries, entry [j] an index of the
    first [len - j] bytes. *)
Definition valid_table (len : Z) (E : list Z) : Prop :=
  length E = Z.to_nat (len - 1)
  ∧ ∀ j e, E !! j = Some e → 0 ≤ e ≤ len - 1 - Z.of_nat j.

(** The largest [len] for which [malloc] serves the table:
    [(len - 1) * sizeof(size_t) <= PTRDIFF_MAX]. *)
Definition MAX_LEN : Z := 2 ^ 60.

(** ** Shuffle and DeShuffle *)

(** Body of the loop of [Shuffle]. *)
Definition Shuffle_body (exTable : size_t_ptr) (len i : Z) (data : list byte)
    : result (list byte) :=
  n ← load_cell exTable (wrapsz (wrapsz (len - 1) - i));
  tmp ← load data i;
  x ← load data n;
  data ← store data i x;
  store data n tmp.

Definition Shuffle (data : list byte) (len seed : Z)
    : result (list byte * Z) :=
  '(exTable, seed) ← GenExchangeTable len seed;
  let start := wrapsz (len - 1) in
  data ← for_down (Z.to_nat start) start (Shuffle_body exTable len) data;
  Ok (data, seed).

(** Body of the loop of [DeShuffle]. *)
Definition DeShuffle_body (exTable : size_t_ptr) (len i : Z) (data : list byte)
    : result (list byte) :=
  n ← load_cell exTable (wrapsz (wrapsz (len - i) - 1));
  tmp ← load data i;
  x ← load data n;
  data ← store data i x;
  store data n tmp.

Definition DeShuffle (data : list byte) (len seed : Z)
    : result (list byte * Z) :=
  '(exTable, seed) ← GenExchangeTable len seed;
  data ← for_up (Z.to_nat (len - 1)) 1 len (DeShuffle_body exTable len) data;
  Ok (data, seed).

(** ** Code and DeCode *)

(** [(char)(random()%255)], given the value [r] that [random()] returned. *)
Definition mask (r : Z) : byte := char_of_Z (r mod 255).

(** [c += m] and [c -= m] on chars. *)
Definition char_add (c m : byte) : byte := char_of_Z (Z_of_char c + Z_of_char m).
Definition char_sub (c m : byte) : byte := char_of_Z (Z_of_char c - Z_of_char m).

Definition Code_body (i : Z) (s : list byte * Z) : result (list byte * Z) :=
  let '(data, seed) := s in
  let '(r, seed) := random seed in
  c ← load data i;
  data ← store data i (char_add c (mask r));
  Ok (data, seed).

Definition Code (data : list byte) (len seed : Z) : result (list byte * Z) :=
  for_up (Z.to_nat len) 0 len Code_body (data, seed).

Definition DeCode_body (i : Z) (s : list byte * Z) : result (list byte * Z) :=
  let '(data, seed) := s in
  let '(r, seed) := random seed in
  c ← load data i;
  data ← store data i (char_sub c (mask r));
  Ok (data, seed).

Definition DeCode (data : list byte) (len seed : Z) : result (list byte * Z) :=
  for_up (Z.to_nat len) 0 len DeCode_body (data, seed).

(** ** Encrypt and Decrypt *)

Definition Encrypt_body (len : Z) (keys : list Z) (kn i : Z)
    (s : list byte * Z) : result (list byte * Z) :=
  let '(data, _) := s in
  seed ← load keys i;
  '(data, _) ← Shuffle data len seed;
  seed ← load keys (wrapsz (wrapsz (kn - 1) - i));
  Code data len seed.

Definition Encrypt (data : list byte) (len : Z) (keys : list Z) (kn seed : Z)
    : result (list byte * Z) :=
  for_up (Z.to_nat kn) 0 kn (Encrypt_body len keys kn) (data, seed).

Definition Decrypt_body (len : Z) (keys : list Z) (kn i : Z)
    (s : list byte * Z) : result (list byte * Z) :=
  let '(data, _) := s in
  seed ← load keys (wrapsz (wrapsz (kn - 1) - i));
  '(data, _) ← DeCode data len seed;
  seed ← load keys i;
  DeShuffle data len seed.

Definition Decrypt (data : list byte) (len : Z) (keys : list Z) (kn seed : Z)
    : result (list byte * Z) :=
  for_postdec (Z.to_nat kn) kn (Decrypt_body len keys kn) (data, seed).

(** [Encrypt] followed by [Decrypt] on its result, as the self-test of
    [main] runs them (lines 149-150). *)
Definition round_trip (data : list byte) (len : Z) (keys : list Z)
    (kn seed : Z) : result (list byte * Z) :=
  '(data, seed) ← Encrypt data len keys kn seed;
  Decrypt data len keys kn seed.

(** The keys of the self-test (lines 144-147). *)
Definition test_keys : list Z := [0xFF123456; 0x12345678; 0xABCDEFED; 0x09876543].

(** ** The program *)

Definition EXIT_SUCCESS : Z := 0.
Definition EXIT_FAILURE : Z := 1.
Definition EOF : Z := -1.

(** The initial value of the global [seed] (line 28). *)
Definition seed_init : Z := 0xF1F2F3F4.

#[local] Instance ascii_eq_dec : EqDecision ascii := Ascii.ascii_dec.
#[local] Instance byte_eq_dec : EqDecision byte := Byte.byte_eq_dec.

(** [strlen(s)] and [strcmp(s, t) == 0]; a string is the list of its
    characters before the terminator. *)
Definition strlen (s : list ascii) : Z := wrapsz (Z.of_nat (length s)).
Definition streq (s t : list ascii) : bool := bool_decide (s = t).

(** A pointer returned by [malloc] or [realloc] to cells of [size]
    bytes, as [size_t_ptr] above: the null pointer or a block whose
    cells are indeterminate until they are written.  [realloc] keeps
    the cells the two sizes have in common. *)
Definition block (A : Type) : Type := option (list (option A)).

Definition malloc_cells {A : Type} (size bytes : Z) : block A :=
  if PTRDIFF_MAX <? bytes then None
  else Some (replicate (Z.to_nat (bytes / size)) None).

Definition realloc_cells {A : Type} (size : Z) (p : block A) (bytes : Z)
    : block A :=
  match p with
  | None => malloc_cells size bytes
  | Some cells =>
      if PTRDIFF_MAX <? bytes then None
      else let n := Z.to_nat (bytes / size) in
           Some (take n cells ++ replicate (n - length cells) None)
  end.

Definition block_store {A : Type} (p : block A) (i : Z) (x : A)
    : result (block A) :=
  match p with
  | None => Err NullDeref
  | Some cells => cells ← store cells i (Some x); Ok (Some cells)
  end.

(** The [n] cells an array argument of length [n] points to, as the
    callee reads them. *)
Fixpoint initialised {A : Type} (cells : list (option A)) : result (list A) :=
  match cells with
  | [] => Ok []
  | Some x :: cells => xs ← initialised cells; Ok (x :: xs)
  | None :: _ => Err UninitRead
  end.

Definition block_prefix {A : Type} (p : block A) (n : Z) : result (list A) :=
  match p with
  | None => Err NullDeref
  | Some cells =>
      if Z.of_nat (length cells) <? n then Err OutOfBounds
      else initialised (take (Z.to_nat n) cells)
  end.

(** The conversion of the [size_t] argument [i * 8] to the [int]
    parameter [start]. *)
Definition int_of_size_t (z : Z) : Z :=
  let w := wrap32 z in if w <? 2 ^ 31 then w else w - 2 ^ 32.

(** Lines 179-182: the key is split into subkeys of 8 characters. *)
Definition main_keys_body (order : byte_order) (key : list ascii) (i : Z)
    (keys : block Z) : result (block Z) :=
  k ← HexToUInt32 order key (int_of_size_t (wrapsz (i * 8)));
  block_store keys i k.

Definition main_keys (order : byte_order) (key : list ascii)
    : result (block Z * Z) :=
  let kn := strlen key / 8 in
  let keys := malloc_cells 4 (wrapsz (kn * 4)) in
  keys ← for_up (Z.to_nat kn) 0 kn (main_keys_body order key) keys;
  Ok (keys, kn).

(** Lines 189-197: [stdin] is read to its end; [getc] returns the next
    byte as a value in 0..255, and [EOF] when none is left. *)
Fixpoint main_read (stdin : list byte) (data : block byte) (allocSize len : Z)
    : result (block byte * Z) :=
  match stdin with
  | [] => Ok (data, len)
  | b :: stdin =>
      let c := wrap32 (Z_of_char b) in
      if c =? wrap32 EOF then Ok (data, len)
      else
        data ← block_store data len (char_of_Z c);
        let len := wrapsz (len + 1) in
        if allocSize =? wrapsz (len + 1) then
          let allocSize := wrapsz (allocSize * 2) in
          main_read stdin (realloc_cells 1 data (wrapsz (allocSize * 1)))
            allocSize len
        else main_read stdin data allocSize len
  end.

(** Lines 204-205: the buffer is written to [stdout]. *)
Definition main_print (data : list byte) (len : Z) : result (list byte) :=
  for_up (Z.to_nat len) 0 len (λ i out, c ← load data i; Ok (out ++ [c])) [].

(** Lines 178-211 of [main]: the work done once the arguments are
    accepted, [d] being the decrypt flag and [key] the key argument. *)
Definition main_run (order : byte_order) (d : Z) (key : list ascii)
    (stdin : list byte) : result (Z * list byte) :=
  '(keys, kn) ← main_keys order key;
  '(data, len) ← main_read stdin (malloc_cells 1 (1000 * 1)) 1000 0;
  keys ← block_prefix keys kn;
  data ← block_prefix data len;
  '(data, _) ← (if d =? 0 then Encrypt data len keys kn seed_init
                 else Decrypt data len keys kn seed_init);
  out ← main_print data len;
  Ok (EXIT_SUCCESS, out).

(** [main] of the program (lines 165-212) on the arguments [argv] (the
    program name first) and the content of [stdin]: the exit status and
    what was written to [stdout].  The text written to [stderr] is left
    out.  [Err BadKeyChar] is the [exit(EXIT_FAILURE)] of [HexToUInt32]. *)
Definition main (order : byte_order) (argv : list (list ascii))
    (stdin : list byte) : result (Z * list byte) :=
  let argc := Z.of_nat (length argv) in
  d ← (if argc =? 3
       then a ← load argv 1; Ok (if streq a ["-"; "d"]%char then 1 else 0)
       else Ok 0);
  usage ← (if negb (argc =? 2) && (d =? 0) then Ok true
           else key ← load argv (1 + d); Ok (negb (strlen key mod 8 =? 0)));
  if usage : bool then Ok (EXIT_FAILURE, [])
  else key ← load argv (1 + d); main_run order d key stdin.

(** [strlen] and [strcmp] on a buffer of chars that is followed by a
    terminator. *)
Fixpoint before_nul (s : list byte) : list byte :=
  match s with
  | [] => []
  | b :: s => if bool_decide (b = x00) then [] else b :: before_nul s
  end.

(** The text of line 140. *)
Definition test_text : list byte :=
  [x48; x65; x6c; x6c; x6f; x20; x66; x72; x6f; x6d; x20; x45; x6e; x63; x72;
   x79; x70; x74; x69; x6f; x6e; x20; x48; x65; x6c; x6c; x21].

(** [main] of the self-test (lines 138-161): its exit status. *)
Definition main_TEST : result Z :=
  let org := test_text in
  let enc := org in
  '(enc, seed) ← Encrypt enc (wrapsz (Z.of_nat (length (before_nul enc))))
                   test_keys 4 seed_init;
  '(enc, _) ← Decrypt enc (wrapsz (Z.of_nat (length (before_nul enc))))
                test_keys 4 seed;
  if bool_decide (before_nul org = before_nul enc) then Ok EXIT_SUCCESS
  else Ok EXIT_FAILURE.

(** Sample arguments and input for the instances at the end. *)
Definition sample_prog : list ascii := ["p"; "e"; "s"; "c"]%char.
Definition sample_key : list ascii :=
  ["F"; "F"; "1"; "2"; "3"; "4"; "5"; "6";
   "1"; "2"; "3"; "4"; "5"; "6"; "7"; "8"]%char.
Definition sample_bad_key : list ascii :=
  ["F"; "F"; "1"; "2"; "3"; "4"; "5"; "G"]%char.
Definition sample_text : list byte := [x48; x69; xff; x00].

(** * Properties *)

(** Evaluate the closed powers of two of the goal. *)
Ltac eval_pow2 :=
  repeat match goal with
         | |- context [2 ^ ?e] =>
             let v := eval cbv in (2 ^ e) in change (2 ^ e) with v
         end.

(** ** Machine integers and chars *)

Lemma wrapsz_small z : 0 ≤ z < 2 ^ 64 → wrapsz z = z.
Proof. intros H. unfold wrapsz. apply Z.mod_small. exact H. Qed.

Lemma Z_of_char_range b : 0 ≤ Z_of_char b < 256.
Proof.
  unfold Z_of_char. pose proof (Byte.to_N_bounded b) as H.
  lia.
Qed.

Lemma char_of_Z_of_char b : char_of_Z (Z_of_char b) = b.
Proof.
  unfold char_of_Z. rewrite Z.mod_small by apply Z_of_char_range.
  unfold Z_of_char. rewrite N2Z.id, Byte.of_to_N. reflexivity.
Qed.

Lemma Z_of_char_of_Z z : Z_of_char (char_of_Z z) = z mod 256.
Proof.
  unfold char_of_Z, Z_of_char.
  assert (Hr : 0 ≤ z mod 256 < 256) by (apply Z.mod_pos_bound; lia).
  destruct (Byte.of_N (Z.to_N (z mod 256))) as [b|] eqn:E.
  - apply Byte.to_of_N in E. rewrite E. lia.
  - apply Byte.of_N_None_iff in E. lia.
Qed.

Lemma char_of_Z_mod z : char_of_Z (z mod 256) = char_of_Z z.
Proof. unfold char_of_Z. rewrite Z.mod_mod by lia. reflexivity. Qed.

Lemma char_sub_add c m : char_sub (char_add c m) m = c.
Proof.
  unfold char_sub, char_add. rewrite Z_of_char_of_Z.
  rewrite <- char_of_Z_mod, Zminus_mod_idemp_l.
  replace (Z_of_char c + Z_of_char m - Z_of_char m) with (Z_of_char c) by lia.
  rewrite char_of_Z_mod. apply char_of_Z_of_char.
Qed.

Lemma mfold_app {St} (body : Z → St → result St) l1 l2 s :
  mfold body (l1 ++ l2) s = (s' ← mfold body l1 s; mfold body l2 s').
Proof.
  revert s. induction l1 as [|i l1 IH]; intros s; simpl; [reflexivity|].
  destruct (body i s) as [s'|e]; simpl; [apply IH|reflexivity].
Qed.

Lemma for_up_mfold {St} (body : Z → St → result St) k : ∀ a s,
  0 ≤ a → a + Z.of_nat k < 2 ^ 64 →
  for_up k a (a + Z.of_nat k) body s = mfold body (seqZ a (Z.of_nat k)) s.
Proof.
  induction k as [|k IH]; intros a s Ha Hb.
  - simpl. rewrite Z.add_0_r, Z.ltb_irrefl. reflexivity.
  - cbn [for_up]. rewrite seqZ_cons by lia.
    replace (a <? a + Z.of_nat (S k)) with true by (symmetry; apply Z.ltb_lt; lia).
    cbn [mfold]. rewrite wrapsz_small by lia.
    replace (a + Z.of_nat (S k)) with (Z.succ a + Z.of_nat k) by lia.
    replace (Z.pred (Z.of_nat (S k))) with (Z.of_nat k) by lia.
    replace (a + 1) with (Z.succ a) by lia.
    destruct (body a s) as [s'|e]; [|reflexivity].
    apply IH; lia.
Qed.

Lemma for_down_mfold {St} (body : Z → St → result St) k : ∀ s,
  Z.of_nat k < 2 ^ 64 →
  for_down k (Z.of_nat k) body s = mfold body (reverse (seqZ 1 (Z.of_nat k))) s.
Proof.
  induction k as [|k IH]; intros s Hb.
  - reflexivity.
  - cbn [for_down]. rewrite seqZ_S, reverse_snoc.
    replace (0 <? Z.of_nat (S k)) with true by (symmetry; apply Z.ltb_lt; lia).
    cbn [mfold]. replace (1 + Z.of_nat k) with (Z.of_nat (S k)) by lia.
    replace (wrapsz (Z.of_nat (S k) - 1)) with (Z.of_nat k)
      by (rewrite wrapsz_small; lia).
    destruct (body (Z.of_nat (S k)) s) as [s'|e]; [|reflexivity].
    apply IH; lia.
Qed.

Lemma for_postdec_mfold {St} (body : Z → St → result St) k : ∀ s,
  Z.of_nat k < 2 ^ 64 →
  for_postdec k (Z.of_nat k) body s = mfold body (reverse (seqZ 0 (Z.of_nat k))) s.
Proof.
  induction k as [|k IH]; intros s Hb.
  - reflexivity.
  - cbn [for_postdec]. rewrite seqZ_S, reverse_snoc.
    replace (Z.of_nat (S k) =? 0) with false by (symmetry; apply Z.eqb_neq; lia).
    cbv zeta.
    replace (wrapsz (Z.of_nat (S k) - 1)) with (Z.of_nat k)
      by (rewrite wrapsz_small; lia).
    rewrite Z.add_0_l.
    cbn [mfold]. destruct (body (Z.of_nat k) s) as [s'|e]; [|reflexivity].
    apply IH; lia.
Qed.

(** ** Arrays *)

Lemma load_lookup {A} (a : list A) i x :
  0 ≤ i → a !! Z.to_nat i = Some x → load a i = Ok x.
Proof.
  intros Hi Hx. unfold load.
  replace (i <? 0) with false by (symmetry; apply Z.ltb_ge; lia).
  rewrite Hx. reflexivity.
Qed.

Lemma store_lookup {A} (a : list A) i x y :
  0 ≤ i → a !! Z.to_nat i = Some y → store a i x = Ok (<[Z.to_nat i := x]> a).
Proof.
  intros Hi Hy. unfold store.
  replace (i <? 0) with false by (symmetry; apply Z.ltb_ge; lia).
  rewrite Hy. reflexivity.
Qed.

Lemma insert_cons_Permutation {A} (l : list A) j a y :
  l !! j = Some y → y :: <[j := a]> l ≡ₚ a :: l.
Proof.
  revert j. induction l as [|b t IH]; intros [|j] Hj; simplify_eq/=.
  - apply perm_swap.
  - rewrite perm_swap, (IH _ Hj). apply perm_swap.
Qed.

(** Exchanging two cells rearranges the array. *)
Lemma exchange_Permutation {A} (l : list A) i j x y :
  l !! i = Some x → l !! j = Some y → <[j := x]> (<[i := y]> l) ≡ₚ l.
Proof.
  revert i j. induction l as [|a t IH]; intros [|i] [|j] Hi Hj; simplify_eq/=.
  - reflexivity.
  - by apply insert_cons_Permutation.
  - by apply insert_cons_Permutation.
  - f_equiv. by apply IH.
Qed.

(** Exchanging the same two cells again restores the array. *)
Lemma exchange_twice {A} (l : list A) i j x y :
  l !! i = Some x → l !! j = Some y →
  let l' := <[j := x]> (<[i := y]> l) in
  ∃ tmp, l' !! i = Some tmp ∧ l' !! j = Some x
         ∧ <[j := tmp]> (<[i := x]> l') = l.
Proof.
  intros Hi Hj l'. subst l'.
  pose proof (lookup_lt_Some _ _ _ Hi) as Li.
  pose proof (lookup_lt_Some _ _ _ Hj) as Lj.
  destruct (decide (i = j)) as [->|Hne].
  - assert (x = y) by congruence. subst y. exists x.
    rewrite !list_insert_insert_eq, (list_insert_id _ _ _ Hi). auto.
  - exists y. split; [|split].
    + rewrite list_lookup_insert_ne by congruence.
      by rewrite list_lookup_insert_eq.
    + rewrite list_lookup_insert_eq; [done|by rewrite length_insert].
    + rewrite (list_insert_insert_ne _ i j) by done.
      rewrite !list_insert_insert_eq.
      rewrite (list_insert_id _ _ _ Hi). apply (list_insert_id _ _ _ Hj).
Qed.

(** ** Loops *)

(** A property every iteration keeps is kept by the loop, which then
    completes. *)
Lemma mfold_invariant {St} (body : Z → St → result St) (P : St → Prop) l :
  (∀ i, i ∈ l → ∀ s, P s → ∃ s', body i s = Ok s' ∧ P s') →
  ∀ s, P s → ∃ s', mfold body l s = Ok s' ∧ P s'.
Proof.
  induction l as [|i l IH]; intros Hstep s Hs; [by exists s|].
  destruct (Hstep i (list_elem_of_here _ _) s Hs) as (s1 & E1 & P1).
  destruct (IH (λ k Hk, Hstep k (list_elem_of_further _ _ _ Hk)) s1 P1)
    as (s' & E' & P').
  exists s'. cbn [mfold]. by rewrite E1.
Qed.

(** If [g i] undoes [f i] up to [R], running [g] over the iterations in
    the opposite order undoes running [f] over them. *)
Lemma mfold_inverse {St} (f g : Z → St → result St)
    (P : St → Prop) (R : St → St → Prop) l :
  (∀ i, i ∈ l → ∀ s, P s →
     ∃ s', f i s = Ok s' ∧ P s'
           ∧ ∀ t', R t' s' → ∃ t, g i t' = Ok t ∧ R t s) →
  ∀ s, P s →
    ∃ s', mfold f l s = Ok s' ∧ P s'
          ∧ ∀ t', R t' s' → ∃ t, mfold g (reverse l) t' = Ok t ∧ R t s.
Proof.
  induction l as [|i l IH]; intros Hstep s Hs.
  - exists s. repeat split; [done|]. intros t' Ht'. by exists t'.
  - destruct (Hstep i (list_elem_of_here _ _) s Hs) as (s1 & E1 & P1 & B1).
    destruct (IH (λ k Hk, Hstep k (list_elem_of_further _ _ _ Hk)) s1 P1)
      as (s' & E' & P' & B').
    exists s'. cbn [mfold]. rewrite E1. repeat split; [done..|].
    intros t' Ht'. destruct (B' t' Ht') as (t1 & G1 & R1).
    destruct (B1 t1 R1) as (t & G & Rt).
    exists t. split; [|done].
    rewrite reverse_cons, mfold_app, G1. cbn. by rewrite G.
Qed.

(** ** The generator *)

Lemma schrage_range seed : 0 ≤ schrage seed < 2 ^ 32.
Proof. unfold schrage, wrap32. apply Z.mod_pos_bound. lia. Qed.

Lemma random_unfold seed :
  random seed = (schrage (replace_zero_seed seed) mod 65535,
                 schrage (replace_zero_seed seed)).
Proof.
  unfold random. cbv zeta.
  pose proof (schrage_range (replace_zero_seed seed)) as H.
  replace (schrage (replace_zero_seed seed) <? 0) with false
    by (symmetry; apply Z.ltb_ge; lia).
  reflexivity.
Qed.

Lemma random_range seed : 0 ≤ fst (random seed) ≤ 65534.
Proof.
  rewrite random_unfold. cbn [fst].
  pose proof (Z.mod_pos_bound (schrage (replace_zero_seed seed)) 65535).
  lia.
Qed.

Lemma draws_length k : ∀ seed, length (draws k seed) = k.
Proof.
  induction k as [|k IH]; intros seed; [done|].
  cbn [draws]. destruct (random seed) as [r s']. cbn. by rewrite IH.
Qed.

Lemma draws_range k : ∀ seed, Forall (λ r, 0 ≤ r ≤ 65534) (draws k seed).
Proof.
  induction k as [|k IH]; intros seed; [constructor|].
  cbn [draws]. pose proof (random_range seed) as H.
  destruct (random seed) as [r s']. constructor; [exact H|apply IH].
Qed.

(** ** The exchange table *)

Lemma GenExchangeTable_body_step len i pre rest seed :
  1 ≤ i → len < 2 ^ 64 → Z.of_nat (length pre) = len - 1 - i →
  GenExchangeTable_body len i (Some ((Some <$> pre) ++ None :: rest), seed)
  = Ok (Some ((Some <$> pre ++ [fst (random seed) mod (i + 1)]) ++ rest),
        snd (random seed)).
Proof.
  intros Hi Hmax Hpre. unfold GenExchangeTable_body.
  destruct (random seed) as [r s']. cbn [fst snd].
  unfold umod. rewrite (wrapsz_small (i + 1)) by lia.
  replace (i + 1 =? 0) with false by (symmetry; apply Z.eqb_neq; lia).
  cbn [mbind result_bind].
  rewrite (wrapsz_small (len - 1)) by lia.
  rewrite (wrapsz_small (len - 1 - i)) by lia.
  assert (Hidx : Z.to_nat (len - 1 - i) = (length (Some <$> pre) + 0)%nat)
    by (rewrite length_fmap; lia).
  unfold store_cell. erewrite store_lookup; [| lia |].
  2:{ rewrite Hidx, lookup_app_r by lia.
      replace (length (Some <$> pre) + 0 - length (Some <$> pre))%nat
        with 0%nat by lia. reflexivity. }
  cbn [mbind result_bind].
  rewrite Hidx, insert_app_r. cbn [insert list_insert].
  rewrite fmap_app, <- app_assoc. reflexivity.
Qed.

Lemma GenExchangeTable_loop len k : ∀ pre seed,
  Z.of_nat (length pre) + Z.of_nat k = len - 1 → len < 2 ^ 64 →
  for_down k (Z.of_nat k) (GenExchangeTable_body len)
    (Some ((Some <$> pre) ++ replicate k None), seed)
  = Ok (Some (Some <$> pre ++
                imap (λ j r, r mod (Z.of_nat k + 1 - Z.of_nat j)) (draws k seed)),
        seed_after k seed).
Proof.
  induction k as [|k IH]; intros pre seed Hlen Hmax.
  - cbn. by rewrite !app_nil_r.
  - cbn [for_down draws seed_after replicate].
    replace (0 <? Z.of_nat (S k)) with true by (symmetry; apply Z.ltb_lt; lia).
    rewrite GenExchangeTable_body_step by lia.
    cbn [mbind result_bind].
    rewrite (wrapsz_small (Z.of_nat (S k) - 1)) by lia.
    replace (Z.of_nat (S k) - 1) with (Z.of_nat k) by lia.
    rewrite IH by (rewrite ?length_app; cbn [length]; lia).
    destruct (random seed) as [r s']. cbn [fst snd].
    rewrite imap_cons, <- app_assoc. cbn [app].
    do 5 f_equal.
    replace (Z.of_nat (S k) + 1 - Z.of_nat 0) with (Z.of_nat (S k) + 1) by lia.
    f_equal. apply imap_ext. intros j x _. cbn. f_equal. lia.
Qed.

Lemma GenExchangeTable_spec len seed :
  1 ≤ len ≤ MAX_LEN →
  GenExchangeTable len seed
  = Ok (Some (Some <$> exchange_entries len seed),
        seed_after (Z.to_nat (len - 1)) seed).
Proof.
  unfold MAX_LEN. intros Hlen. unfold GenExchangeTable, malloc, sizeof_size_t, PTRDIFF_MAX.
  cbv zeta. rewrite (wrapsz_small (len - 1)) by lia.
  rewrite (wrapsz_small ((len - 1) * 8)) by lia.
  replace (2 ^ 63 - 1 <? (len - 1) * 8) with false by (symmetry; apply Z.ltb_ge; lia).
  rewrite Z.div_mul by lia.
  pose proof (GenExchangeTable_loop len (Z.to_nat (len - 1)) [] seed) as H.
  cbn [fmap list_fmap app length] in H.
  rewrite Z2Nat.id in H by lia.
  etrans; [apply H; lia|]. unfold exchange_entries.
  do 4 f_equal. apply imap_ext. intros j x _. cbn. f_equal. lia.
Qed.

Lemma exchange_entries_length n seed :
  length (exchange_entries n seed) = Z.to_nat (n - 1).
Proof. unfold exchange_entries. by rewrite length_imap, draws_length. Qed.

Lemma exchange_entries_lookup n seed j :
  (j < Z.to_nat (n - 1))%nat →
  ∃ r, draws (Z.to_nat (n - 1)) seed !! j = Some r
       ∧ exchange_entries n seed !! j = Some (r mod (n - Z.of_nat j))
       ∧ 0 ≤ r mod (n - Z.of_nat j) ≤ n - 1 - Z.of_nat j.
Proof.
  intros Hj.
  destruct (lookup_lt_is_Some_2 (draws (Z.to_nat (n - 1)) seed) j) as [r Hr];
    [by rewrite draws_length|].
  exists r. split; [done|]. split.
  - unfold exchange_entries. by rewrite list_lookup_imap, Hr.
  - pose proof (Z.mod_pos_bound r (n - Z.of_nat j)). lia.
Qed.

(** ** Shuffle and DeShuffle *)

Lemma exchange_ok (data : list byte) i n x y :
  0 ≤ i → 0 ≤ n →
  data !! Z.to_nat i = Some x → data !! Z.to_nat n = Some y →
  (tmp ← load data i; x' ← load data n;
   data' ← store data i x'; store data' n tmp)
  = Ok (<[Z.to_nat n := x]> (<[Z.to_nat i := y]> data)).
Proof.
  intros Hi Hn Hx Hy.
  rewrite (load_lookup _ _ _ Hi Hx). cbn [mbind result_bind].
  rewrite (load_lookup _ _ _ Hn Hy). cbn [mbind result_bind].
  rewrite (store_lookup _ _ _ _ Hi Hx). cbn [mbind result_bind].
  destruct (lookup_lt_is_Some_2 (<[Z.to_nat i := y]> data) (Z.to_nat n)) as [z Hz].
  { rewrite length_insert. by eapply lookup_lt_Some. }
  apply (store_lookup _ _ _ _ Hn Hz).
Qed.

(** The two loops read the same cell of the table. *)
Lemma DeShuffle_body_eq exTable len i data :
  1 ≤ i < len → len < 2 ^ 64 →
  DeShuffle_body exTable len i data = Shuffle_body exTable len i data.
Proof.
  intros Hi Hmax. unfold DeShuffle_body, Shuffle_body.
  rewrite (wrapsz_small (len - i)), (wrapsz_small (len - 1)) by lia.
  by replace (len - i - 1) with (len - 1 - i) by lia.
Qed.

Lemma exchange_entries_valid len seed : valid_table len (exchange_entries len seed).
Proof.
  split; [apply exchange_entries_length|]. intros j e He.
  pose proof (lookup_lt_Some _ _ _ He) as Hj.
  rewrite exchange_entries_length in Hj.
  destruct (exchange_entries_lookup len seed j Hj) as (r & _ & Hr & Hb).
  congruence.
Qed.

Lemma Shuffle_body_step E len i (data : list byte) :
  valid_table len E → 1 ≤ i < len → len < 2 ^ 64 →
  length data = Z.to_nat len →
  ∃ data', Shuffle_body (Some (Some <$> E)) len i data = Ok data'
           ∧ length data' = Z.to_nat len ∧ data' ≡ₚ data
           ∧ Shuffle_body (Some (Some <$> E)) len i data' = Ok data.
Proof.
  intros [HE Hb] Hi Hmax Hd.
  destruct (lookup_lt_is_Some_2 E (Z.to_nat (len - 1 - i))) as [e He]; [lia|].
  pose proof (Hb _ _ He) as Hr. rewrite Z2Nat.id in Hr by lia.
  destruct (lookup_lt_is_Some_2 data (Z.to_nat i)) as [x Hx]; [lia|].
  destruct (lookup_lt_is_Some_2 data (Z.to_nat e)) as [y Hy]; [lia|].
  assert (Hcell : ∀ d : list byte,
    Shuffle_body (Some (Some <$> E)) len i d
    = (tmp ← load d i; x' ← load d e; d' ← store d i x'; store d' e tmp)).
  { intros d. unfold Shuffle_body, load_cell.
    rewrite (wrapsz_small (len - 1)), (wrapsz_small (len - 1 - i)) by lia.
    assert (Hl : load (Some <$> E) (len - 1 - i) = Ok (Some e)).
    { apply load_lookup; [lia|]. by rewrite list_lookup_fmap, He. }
    by rewrite Hl. }
  exists (<[Z.to_nat e := x]> (<[Z.to_nat i := y]> data)).
  destruct (exchange_twice data _ _ x y Hx Hy) as (tmp & Ht & Hx' & Hback).
  split; [|split; [|split]].
  - rewrite Hcell. apply exchange_ok; [lia..|done|done].
  - by rewrite !length_insert.
  - by apply exchange_Permutation.
  - rewrite Hcell. rewrite (exchange_ok _ i e tmp x); [|lia..|done|done].
    by rewrite Hback.
Qed.

Lemma Shuffle_loops E len (data : list byte) :
  valid_table len E → 1 ≤ len < 2 ^ 64 → length data = Z.to_nat len →
  let exTable := Some (Some <$> E) in
  ∃ data',
    for_down (Z.to_nat (len - 1)) (len - 1) (Shuffle_body exTable len) data
    = Ok data'
    ∧ (length data' = Z.to_nat len ∧ data' ≡ₚ data)
    ∧ for_up (Z.to_nat (len - 1)) 1 len (DeShuffle_body exTable len) data'
      = Ok data.
Proof.
  intros HE Hlen Hd exTable.
  pose proof (for_down_mfold (Shuffle_body exTable len) (Z.to_nat (len - 1))) as Hdown.
  pose proof (for_up_mfold (DeShuffle_body exTable len) (Z.to_nat (len - 1)) 1) as Hup.
  rewrite Z2Nat.id in Hdown, Hup by lia.
  replace (1 + (len - 1)) with len in Hup by lia.
  destruct (mfold_inverse (Shuffle_body exTable len) (DeShuffle_body exTable len)
              (λ d, length d = Z.to_nat len ∧ d ≡ₚ data) eq
              (reverse (seqZ 1 (len - 1)))) with (s := data)
    as (data' & Hs & HP & Hinv); [|done|].
  - intros i Hin d [Hld Hpd].
    apply elem_of_reverse, elem_of_seqZ in Hin.
    destruct (Shuffle_body_step E len i d HE) as (d' & E1 & L1 & P1 & B1);
      [lia..|done|].
    exists d'. split; [done|]. split; [split; [done|by rewrite P1]|].
    intros t' ->. exists d. by rewrite DeShuffle_body_eq by lia.
  - exists data'. rewrite Hdown, Hs by lia. split; [done|]. split; [done|].
    rewrite Hup by lia. destruct (Hinv data' eq_refl) as (t & Ht & ->).
    by rewrite reverse_involutive in Ht.
Qed.

Lemma DeShuffle_loop E len (data : list byte) :
  valid_table len E → 1 ≤ len < 2 ^ 64 → length data = Z.to_nat len →
  ∃ data',
    for_up (Z.to_nat (len - 1)) 1 len
      (DeShuffle_body (Some (Some <$> E)) len) data = Ok data'
    ∧ length data' = Z.to_nat len ∧ data' ≡ₚ data.
Proof.
  intros HE Hlen Hd.
  pose proof (for_up_mfold (DeShuffle_body (Some (Some <$> E)) len)
                (Z.to_nat (len - 1)) 1) as Hup.
  rewrite Z2Nat.id in Hup by lia.
  replace (1 + (len - 1)) with len in Hup by lia.
  rewrite Hup by lia.
  apply (mfold_invariant _ (λ d, length d = Z.to_nat len ∧ d ≡ₚ data)); [|done].
  intros i Hin d [Hld Hpd]. apply elem_of_seqZ in Hin.
  destruct (Shuffle_body_step E len i d HE) as (d' & E1 & L1 & P1 & _);
    [lia..|done|].
  exists d'. rewrite DeShuffle_body_eq by lia.
  split; [done|]. split; [done|by rewrite P1].
Qed.

Lemma Shuffle_then_DeShuffle (data : list byte) len seed :
  1 ≤ len ≤ MAX_LEN → Z.of_nat (length data) = len →
  ∃ data',
    Shuffle data len seed = Ok (data', seed_after (Z.to_nat (len - 1)) seed)
    ∧ length data' = length data ∧ data' ≡ₚ data
    ∧ DeShuffle data' len seed
      = Ok (data, seed_after (Z.to_nat (len - 1)) seed).
Proof.
  intros Hlen Hd. pose proof Hlen as Hlen'. unfold MAX_LEN in Hlen'.
  destruct (Shuffle_loops (exchange_entries len seed) len data)
    as (data' & Hs & [L P] & Hb);
    [apply exchange_entries_valid|lia..|].
  exists data'. unfold Shuffle, DeShuffle.
  rewrite GenExchangeTable_spec by done. cbn [mbind result_bind].
  rewrite (wrapsz_small (len - 1)) by lia.
  rewrite Hs, Hb. cbn [mbind result_bind].
  repeat split; [lia|done].
Qed.

Lemma DeShuffle_rearranges (data : list byte) len seed :
  1 ≤ len ≤ MAX_LEN → Z.of_nat (length data) = len →
  ∃ data',
    DeShuffle data len seed = Ok (data', seed_after (Z.to_nat (len - 1)) seed)
    ∧ length data' = length data ∧ data' ≡ₚ data.
Proof.
  intros Hlen Hd. pose proof Hlen as Hlen'. unfold MAX_LEN in Hlen'.
  destruct (DeShuffle_loop (exchange_entries len seed) len data)
    as (data' & Hs & L & P);
    [apply exchange_entries_valid|lia..|].
  exists data'. unfold DeShuffle.
  rewrite GenExchangeTable_spec by done. cbn [mbind result_bind].
  rewrite Hs. cbn [mbind result_bind].
  repeat split; [lia|done].
Qed.

(** ** Code and DeCode *)

Lemma mask_value r : 0 ≤ r → Z_of_char (mask r) = r mod 255.
Proof.
  intros Hr. unfold mask. rewrite Z_of_char_of_Z.
  pose proof (Z.mod_pos_bound r 255). rewrite Z.mod_small; lia.
Qed.

(** A loop that draws once per position and combines the byte there with
    the mask of the draw. *)
Lemma masked_loop (op : byte → byte → byte)
    (body : Z → list byte * Z → result (list byte * Z)) :
  (∀ i data seed,
     body i (data, seed)
     = (c ← load data i;
        data' ← store data i (op c (mask (fst (random seed))));
        Ok (data', snd (random seed)))) →
  ∀ suf pre seed,
    Z.of_nat (length pre) + Z.of_nat (length suf) < 2 ^ 64 →
    mfold body (seqZ (Z.of_nat (length pre)) (Z.of_nat (length suf)))
      (pre ++ suf, seed)
    = Ok (pre ++ zip_with op suf (mask <$> draws (length suf) seed),
          seed_after (length suf) seed).
Proof.
  intros Hbody. induction suf as [|c suf IH]; intros pre seed Hmax.
  - cbn. by rewrite app_nil_r.
  - rewrite seqZ_cons by (cbn [length]; lia). cbn [mfold].
    rewrite Hbody.
    assert (Hc : (pre ++ c :: suf) !! Z.to_nat (Z.of_nat (length pre)) = Some c).
    { rewrite Nat2Z.id. by rewrite list_lookup_middle. }
    rewrite (load_lookup _ _ _ (Nat2Z.is_nonneg _) Hc). cbn [mbind result_bind].
    rewrite (store_lookup _ _ _ _ (Nat2Z.is_nonneg _) Hc). cbn [mbind result_bind].
    rewrite Nat2Z.id.
    replace (length pre) with (length pre + 0)%nat at 2 by lia.
    rewrite insert_app_r. cbn [insert list_insert].
    specialize (IH (pre ++ [op c (mask (fst (random seed)))]) (snd (random seed))).
    rewrite <- app_assoc in IH. cbn [app] in IH.
    rewrite length_app in IH. cbn [length] in IH, Hmax |- *.
    replace (Z.succ (Z.of_nat (length pre)))
      with (Z.of_nat (length pre + 1)) by lia.
    replace (Z.pred (Z.of_nat (S (length suf)))) with (Z.of_nat (length suf)) by lia.
    rewrite IH by lia. cbn [draws seed_after].
    destruct (random seed) as [r s']. cbn [fst snd fmap list_fmap zip_with].
    by rewrite <- app_assoc.
Qed.

Lemma Code_spec (data : list byte) len seed :
  Z.of_nat (length data) = len → len < 2 ^ 64 →
  Code data len seed
  = Ok (zip_with char_add data (mask <$> draws (length data) seed),
        seed_after (length data) seed).
Proof.
  intros Hd Hmax. unfold Code.
  pose proof (for_up_mfold Code_body (Z.to_nat len) 0) as Hup.
  rewrite Z2Nat.id, Z.add_0_l in Hup by lia. rewrite Hup by lia.
  rewrite <- Hd. apply (masked_loop char_add Code_body) with (pre := []); [|cbn; lia].
  intros i d s. unfold Code_body. by destruct (random s).
Qed.

Lemma DeCode_spec (data : list byte) len seed :
  Z.of_nat (length data) = len → len < 2 ^ 64 →
  DeCode data len seed
  = Ok (zip_with char_sub data (mask <$> draws (length data) seed),
        seed_after (length data) seed).
Proof.
  intros Hd Hmax. unfold DeCode.
  pose proof (for_up_mfold DeCode_body (Z.to_nat len) 0) as Hup.
  rewrite Z2Nat.id, Z.add_0_l in Hup by lia. rewrite Hup by lia.
  rewrite <- Hd. apply (masked_loop char_sub DeCode_body) with (pre := []); [|cbn; lia].
  intros i d s. unfold DeCode_body. by destruct (random s).
Qed.

Lemma zip_sub_add (data ms : list byte) :
  length ms = length data →
  zip_with char_sub (zip_with char_add data ms) ms = data.
Proof.
  revert ms. induction data as [|c data IH]; intros [|m ms] Hl; simplify_eq/=;
    [done|]. by rewrite char_sub_add, IH.
Qed.

Lemma Code_then_DeCode (data : list byte) len seed :
  Z.of_nat (length data) = len → len < 2 ^ 64 →
  ∃ data',
    Code data len seed = Ok (data', seed_after (length data) seed)
    ∧ length data' = length data
    ∧ DeCode data' len seed = Ok (data, seed_after (length data) seed).
Proof.
  intros Hd Hmax.
  assert (Hm : length (mask <$> draws (length data) seed) = length data)
    by (by rewrite length_fmap, draws_length).
  assert (Hl : length (zip_with char_add data (mask <$> draws (length data) seed))
               = length data)
    by (rewrite length_zip_with; lia).
  eexists. split; [by apply Code_spec|]. split; [done|].
  rewrite DeCode_spec by (rewrite ?Hl; done).
  by rewrite Hl, zip_sub_add.
Qed.

(** ** Encrypt and Decrypt *)

(** One round of [Decrypt] undoes the round of [Encrypt] of the same
    index, whatever the seed it is entered with. *)
Lemma round_inverse len (keys : list Z) kn i (data : list byte) seed :
  1 ≤ len ≤ MAX_LEN → Z.of_nat (length data) = len →
  Z.of_nat (length keys) = kn → kn < 2 ^ 64 → 0 ≤ i < kn →
  ∃ s', Encrypt_body len keys kn i (data, seed) = Ok s'
        ∧ length s'.1 = length data
        ∧ ∀ t', t'.1 = s'.1 →
            ∃ t, Decrypt_body len keys kn i t' = Ok t ∧ t.1 = data.
Proof.
  intros Hlen Hd Hk Hkn Hi. pose proof Hlen as Hlen'. unfold MAX_LEN in Hlen'.
  destruct (lookup_lt_is_Some_2 keys (Z.to_nat i)) as [k1 Hk1]; [lia|].
  destruct (lookup_lt_is_Some_2 keys (Z.to_nat (kn - 1 - i))) as [k2 Hk2]; [lia|].
  assert (L1 : load keys i = Ok k1) by (apply load_lookup; [lia|done]).
  assert (L2 : load keys (wrapsz (wrapsz (kn - 1) - i)) = Ok k2).
  { rewrite (wrapsz_small (kn - 1)), (wrapsz_small (kn - 1 - i)) by lia.
    apply load_lookup; [lia|done]. }
  destruct (Shuffle_then_DeShuffle data len k1 Hlen Hd) as (d1 & S1 & Ld1 & _ & S2).
  destruct (Code_then_DeCode d1 len k2) as (d2 & C1 & Ld2 & C2); [lia..|].
  exists (d2, seed_after (length d1) k2). unfold Encrypt_body.
  rewrite L1. cbn [mbind result_bind]. rewrite S1. cbn [mbind result_bind].
  rewrite L2. cbn [mbind result_bind]. split; [done|]. split; [cbn; lia|].
  intros [d s] Ht. cbn in Ht. subst d. unfold Decrypt_body.
  rewrite L2. cbn [mbind result_bind]. rewrite C2. cbn [mbind result_bind].
  rewrite L1. cbn [mbind result_bind]. rewrite S2. by eexists.
Qed.

(** The round trip on a buffer that is not empty. *)
Lemma Decrypt_Encrypt_nonempty (data : list byte) len (keys : list Z) kn seed :
  1 ≤ len ≤ MAX_LEN → Z.of_nat (length data) = len →
  Z.of_nat (length keys) = kn → kn < 2 ^ 64 →
  ∃ data' seed',
    Encrypt data len keys kn seed = Ok (data', seed')
    ∧ length data' = length data
    ∧ ∀ seed2, ∃ seed3, Decrypt data' len keys kn seed2 = Ok (data, seed3).
Proof.
  intros Hlen Hd Hk Hkn. unfold Encrypt, Decrypt.
  pose proof (for_up_mfold (Encrypt_body len keys kn) (Z.to_nat kn) 0) as Hup.
  pose proof (for_postdec_mfold (Decrypt_body len keys kn) (Z.to_nat kn)) as Hdn.
  rewrite Z2Nat.id in Hup, Hdn by lia. rewrite Z.add_0_l in Hup.
  destruct (mfold_inverse (Encrypt_body len keys kn) (Decrypt_body len keys kn)
              (λ s, length s.1 = length data) (λ t s, t.1 = s.1)
              (seqZ 0 kn)) with (s := (data, seed))
    as ([data' seed'] & He & HP & Hinv); [|done|].
  - intros i Hin [d s] Hs. apply elem_of_seqZ in Hin. cbn in Hs.
    destruct (round_inverse len keys kn i d s) as (s' & E1 & L1 & B1);
      [done|lia|done|done|lia|].
    exists s'. split; [done|]. split; [lia|]. exact B1.
  - exists data', seed'. rewrite Hup, He by lia. split; [done|]. split; [done|].
    intros seed2. rewrite Hdn by lia.
    destruct (Hinv (data', seed2) eq_refl) as ([d s3] & Ht & Hd').
    cbn in Hd'. subst d. by exists s3.
Qed.

(** ** Key strings *)

Lemma hex_digit_value_range c d : hex_digit_value c = Some d → 0 ≤ d ≤ 15.
Proof.
  unfold hex_digit_value. cbv zeta.
  repeat case_match; intros; simplify_eq; lia.
Qed.

Lemma HexToUInt32_body_hex order str start i v c d :
  load_str str (wrapsz (start + i)) = Ok c → hex_digit_value c = Some d →
  HexToUInt32_body order str start i v
  = Ok (wrap32 (v + Z.shiftl d (nibble_shift order i))).
Proof.
  intros Hc Hd. unfold HexToUInt32_body. rewrite Hc. cbn [mbind result_bind].
  cbv zeta. unfold hex_digit_value in Hd. cbv zeta in Hd.
  change (char_code "A") with 65. change (char_code "F") with 70.
  change (char_code "a") with 97. change (char_code "f") with 102.
  change (char_code "0") with 48. change (char_code "9") with 57.
  repeat case_match; simplify_eq; try lia; repeat f_equal; lia.
Qed.

Lemma load_str_group (str : list ascii) g i c :
  0 ≤ g → 0 ≤ i < 8 → 8 * g + 8 ≤ Z.of_nat (length str) →
  Z.of_nat (length str) < 2 ^ 31 →
  take 8 (drop (Z.to_nat (8 * g)) str) !! Z.to_nat i = Some c →
  load_str str (wrapsz (8 * g + i)) = Ok c.
Proof.
  intros Hg Hi Hlen Hmax Hc. unfold load_str.
  rewrite wrapsz_small by lia. apply load_lookup; [lia|].
  rewrite lookup_take_lt in Hc by lia. rewrite lookup_drop in Hc.
  rewrite lookup_app_l by lia. rewrite <- Hc. f_equal. lia.
Qed.

(** ** The empty buffer *)

(** With [len = 0] the counter of [GenExchangeTable] starts at
    [SIZE_MAX], and the first iteration divides by [i + 1 = 0]. *)
Lemma GenExchangeTable_0 seed : GenExchangeTable 0 seed = Err DivByZero.
Proof.
  unfold GenExchangeTable. cbv zeta.
  change (wrapsz (0 - 1)) with (2 ^ 64 - 1).
  destruct (Z.to_nat (2 ^ 64 - 1)) as [|fuel] eqn:Hfuel; [lia|].
  cbn [for_down]. change (0 <? 2 ^ 64 - 1) with true. cbv iota.
  assert (Hb : ∀ p, GenExchangeTable_body 0 (2 ^ 64 - 1) (p, seed) = Err DivByZero).
  { intros p. unfold GenExchangeTable_body. destruct (random seed) as [r s'].
    change (wrapsz (2 ^ 64 - 1 + 1)) with 0. reflexivity. }
  by rewrite Hb.
Qed.

Lemma Shuffle_0 data seed : Shuffle data 0 seed = Err DivByZero.
Proof. unfold Shuffle. by rewrite GenExchangeTable_0. Qed.

Lemma DeShuffle_0 data seed : DeShuffle data 0 seed = Err DivByZero.
Proof. unfold DeShuffle. by rewrite GenExchangeTable_0. Qed.

Lemma Encrypt_0 data (keys : list Z) kn seed :
  Z.of_nat (length keys) = kn → 1 ≤ kn < 2 ^ 64 →
  Encrypt data 0 keys kn seed = Err DivByZero.
Proof.
  intros Hk Hkn. unfold Encrypt.
  destruct (Z.to_nat kn) as [|fuel] eqn:Hfuel; [lia|].
  cbn [for_up]. replace (0 <? kn) with true by (symmetry; apply Z.ltb_lt; lia).
  destruct keys as [|k keys]; [cbn in Hk; lia|].
  assert (Hb : Encrypt_body 0 (k :: keys) kn 0 (data, seed) = Err DivByZero).
  { unfold Encrypt_body.
    change (load (k :: keys) 0) with (Ok (A := Z) k). cbn [mbind result_bind].
    by rewrite Shuffle_0. }
  by rewrite Hb.
Qed.

Lemma Decrypt_0 (keys : list Z) kn seed :
  Z.of_nat (length keys) = kn → 1 ≤ kn < 2 ^ 64 →
  Decrypt [] 0 keys kn seed = Err DivByZero.
Proof.
  intros Hk Hkn. unfold Decrypt.
  destruct (Z.to_nat kn) as [|fuel] eqn:Hfuel; [lia|].
  cbn [for_postdec]. replace (kn =? 0) with false by (symmetry; apply Z.eqb_neq; lia).
  cbv zeta. rewrite (wrapsz_small (kn - 1)) by lia.
  destruct (lookup_lt_is_Some_2 keys (Z.to_nat (kn - 1))) as [k2 Hk2]; [lia|].
  destruct keys as [|k keys]; [cbn in Hk; lia|].
  assert (Hb : Decrypt_body 0 (k :: keys) kn (kn - 1) ([], seed) = Err DivByZero).
  { unfold Decrypt_body. rewrite (wrapsz_small (kn - 1)) by lia.
    replace (kn - 1 - (kn - 1)) with 0 by lia.
    change (load (k :: keys) (wrapsz 0)) with (Ok (A := Z) k).
    cbn [mbind result_bind].
    change (DeCode [] 0 k) with (Ok (A := list byte * Z) ([], k)).
    cbn [mbind result_bind].
    rewrite (load_lookup (k :: keys) (kn - 1) k2); [|lia|done].
    cbn [mbind result_bind]. by rewrite DeShuffle_0. }
  by rewrite Hb.
Qed.

(** * The claims *)

(** ** The generator *)

(** C3 (one draw, with the negative correction).  At [Seed = 127773] the
    expression [16807*(Seed mod 127773) - 2836*(Seed div 127773)] is
    [-2836]: the step of the specification adds 2147483647, leaves
    [Seed = 2147480811] and returns 29931, while [random()] leaves
    [Seed = 4294964460], the value wrapped to 32 bits without the
    correction, and returns 62700. *)
Theorem random_misses_correction :
  random 127773 = (62700, 4294964460)
  ∧ spec_next 127773 = (29931, 2147480811).
Proof. split; reflexivity. Qed.

(** C6 (the correction is unreachable).  For every seed the accumulator
    [v] of line 35 is not negative, so the test [v < 0] of line 36 is
    false and [random()] returns [v mod 65535] and stores [v], with
    nothing added. *)
Theorem correction_unreachable seed :
  let v := schrage (replace_zero_seed seed) in
  (v <? 0) = false ∧ random seed = (v mod 65535, v).
Proof.
  cbv zeta. split; [|apply random_unfold].
  apply Z.ltb_ge. apply schrage_range.
Qed.

(** C9 (zero-seed invariant).  Provided the replacement constant is not
    zero as a 32-bit value: a seed of 0 is replaced with that constant
    before the step, any other seed is kept, the seed the step is computed
    from is never 0, and [random()] stores the step of that seed. *)
Theorem zero_seed_replaced seed :
  wrap32 ZERO_SEED ≠ 0 →
  replace_zero_seed seed ≠ 0
  ∧ (seed = 0 → replace_zero_seed seed = wrap32 ZERO_SEED)
  ∧ (seed ≠ 0 → replace_zero_seed seed = seed)
  ∧ random seed = random (replace_zero_seed seed)
  ∧ snd (random seed) = schrage (replace_zero_seed seed).
Proof.
  intros Hz.
  assert (Hcases : (seed = 0 ∧ replace_zero_seed seed = wrap32 ZERO_SEED)
                   ∨ (seed ≠ 0 ∧ replace_zero_seed seed = seed)).
  { unfold replace_zero_seed. destruct (Z.eqb_spec seed 0); auto. }
  assert (Hnz : replace_zero_seed seed ≠ 0) by (destruct Hcases as [[? ->]|[? ->]]; done).
  assert (Hidem : replace_zero_seed (replace_zero_seed seed) = replace_zero_seed seed).
  { unfold replace_zero_seed at 1.
    by destruct (Z.eqb_spec (replace_zero_seed seed) 0). }
  repeat split.
  - exact Hnz.
  - intros ->. by destruct Hcases as [[_ H]|[H _]].
  - intros Hne. by destruct Hcases as [[H _]|[_ H]].
  - by rewrite !random_unfold, Hidem.
  - by rewrite random_unfold.
Qed.

(** ** Key strings *)

(** C4 (key derivation), as the code has it.  For a key string of at
    least [8*g + 8] characters whose group [g] consists of hexadecimal
    digits with values [ds], [HexToUInt32] returns the number written by
    [ds] with the first digit most significant when the program is
    compiled for a big-endian target, and with the first digit least
    significant when it is compiled for a little-endian target: the
    first character of the group is the highest-order 4 bits of the
    subkey in the first case and its lowest-order 4 bits in the second. *)
Theorem HexToUInt32_group order (str : list ascii) g ds :
  0 ≤ g → 8 * g + 8 ≤ Z.of_nat (length str) → Z.of_nat (length str) < 2 ^ 31 →
  Forall2 (λ c d, hex_digit_value c = Some d)
    (take 8 (drop (Z.to_nat (8 * g)) str)) ds →
  ∃ v, HexToUInt32 order str (8 * g) = Ok v
       ∧ v = match order with
             | BigEndian => msd_first ds
             | LittleEndian => lsd_first ds
             end
       ∧ ∀ d0, ds !! 0%nat = Some d0 →
           match order with
           | BigEndian => Z.shiftr v 28 = d0
           | LittleEndian => Z.land v 15 = d0
           end.
Proof.
  intros Hg Hlen Hmax Hds.
  assert (Hl8 : length (take 8 (drop (Z.to_nat (8 * g)) str)) = 8%nat).
  { rewrite length_take, length_drop. lia. }
  pose proof (load_str_group str g) as Hload.
  destruct (take 8 (drop (Z.to_nat (8 * g)) str))
    as [|c0 [|c1 [|c2 [|c3 [|c4 [|c5 [|c6 [|c7 [|]]]]]]]]]; try discriminate Hl8.
  repeat match goal with H : Forall2 _ (_ :: _) _ |- _ => apply Forall2_cons_inv_l in H; destruct H as (? & ? & ? & ? & ->) end.
  match goal with H : Forall2 _ [] _ |- _ => apply Forall2_nil_inv_l in H; subst end.
  repeat match goal with H : hex_digit_value _ = Some _ |- _ =>
    pose proof (hex_digit_value_range _ _ H); revert H end. intros.
  unfold HexToUInt32.
  rewrite (for_up_mfold (HexToUInt32_body order str (8 * g)) 8 0) by lia.
  change (seqZ 0 (Z.of_nat 8)) with [0; 1; 2; 3; 4; 5; 6; 7].
  cbn [mfold].
  repeat (erewrite HexToUInt32_body_hex;
          [cbn [mbind result_bind]
          |apply Hload; [lia..|reflexivity]
          |eassumption]).
  eexists. split; [reflexivity|].
  destruct order; cbn [nibble_shift]; unfold msd_first, lsd_first;
    cbn [fold_left fold_right];
    rewrite ?(wrapsz_small) by lia; rewrite !Z.shiftl_mul_pow2 by lia.
  - change (Z.land ?a 15) with (Z.land a (Z.ones 4)).
    rewrite Z.land_ones by lia. unfold wrap32.
    eval_pow2.
    split; [|intros d0 [= <-]]; Z.div_mod_to_equations; lia.
  - rewrite Z.shiftr_div_pow2 by lia. unfold wrap32.
    eval_pow2.
    split; [|intros d0 [= <-]]; Z.div_mod_to_equations; lia.
Qed.

(** ** The exchange table *)

(** C7 (permutation validity).  For a length [n] with [1 <= n] whose
    table [malloc] serves, [GenExchangeTable] returns a table of [n - 1]
    entries, all written; the entry at position [j] is the [j]-th draw
    modulo [i + 1] for the countdown index [i = n - 1 - j], and lies in
    [[0, n - 1 - j]]. *)
Theorem GenExchangeTable_entries n seed :
  1 ≤ n ≤ MAX_LEN →
  ∃ E, GenExchangeTable n seed
       = Ok (Some (Some <$> E), seed_after (Z.to_nat (n - 1)) seed)
       ∧ Z.of_nat (length E) = n - 1
       ∧ ∀ j : nat, Z.of_nat j < n - 1 →
           ∃ r e, draws (Z.to_nat (n - 1)) seed !! j = Some r
                  ∧ E !! j = Some e
                  ∧ e = r mod ((n - 1 - Z.of_nat j) + 1)
                  ∧ 0 ≤ e ≤ n - 1 - Z.of_nat j.
Proof.
  intros Hn. exists (exchange_entries n seed).
  split; [by apply GenExchangeTable_spec|].
  split; [rewrite exchange_entries_length; lia|].
  intros j Hj.
  destruct (exchange_entries_lookup n seed j) as (r & Hr & He & Hb); [lia|].
  exists r, (r mod (n - Z.of_nat j)).
  replace (n - 1 - Z.of_nat j + 1) with (n - Z.of_nat j) by lia.
  repeat split; [done|done|lia..].
Qed.

(** ** Shuffle and DeShuffle *)

(** C5 (Shuffle then DeShuffle), at the empty buffer.  [Shuffle] on a
    buffer of length 0 divides by zero while it builds its table, so
    there is no shuffled buffer for [DeShuffle] to restore. *)
Theorem Shuffle_empty_buffer seed : Shuffle [] 0 seed = Err DivByZero.
Proof. apply Shuffle_0. Qed.

(** X2.  On every buffer that is not empty (and whose table [malloc]
    serves), [DeShuffle] from the same seed restores what [Shuffle]
    rearranged, and leaves the same seed. *)
Theorem DeShuffle_Shuffle_nonempty (data : list byte) len seed :
  1 ≤ len ≤ MAX_LEN → Z.of_nat (length data) = len →
  ∃ data' seed',
    Shuffle data len seed = Ok (data', seed')
    ∧ DeShuffle data' len seed = Ok (data, seed').
Proof.
  intros Hlen Hd.
  destruct (Shuffle_then_DeShuffle data len seed Hlen Hd) as (d & S1 & _ & _ & S2).
  by exists d, (seed_after (Z.to_nat (len - 1)) seed).
Qed.

(** C10 (rearrangement).  On a buffer of length [n >= 1], [Shuffle] and
    [DeShuffle] each return a buffer that is a permutation of the buffer
    they were given. *)
Theorem Shuffle_DeShuffle_permute (data : list byte) n seed :
  1 ≤ n ≤ MAX_LEN → Z.of_nat (length data) = n →
  (∃ data' seed', Shuffle data n seed = Ok (data', seed') ∧ data' ≡ₚ data)
  ∧ (∃ data' seed', DeShuffle data n seed = Ok (data', seed') ∧ data' ≡ₚ data).
Proof.
  intros Hn Hd. split.
  - destruct (Shuffle_then_DeShuffle data n seed Hn Hd) as (d & S1 & _ & P & _).
    by exists d, (seed_after (Z.to_nat (n - 1)) seed).
  - destruct (DeShuffle_rearranges data n seed Hn Hd) as (d & S1 & _ & P).
    by exists d, (seed_after (Z.to_nat (n - 1)) seed).
Qed.

(** ** Code and DeCode *)

(** C8 (byte mask).  With [rs] the draws from the starting seed, one per
    position in the order 0..n-1, [Code] replaces the byte [c] at each
    position by [c + r mod 255] reduced modulo 256 and [DeCode] replaces
    it by [c - r mod 255] reduced modulo 256, [r] being the draw of that
    position; every mask [r mod 255] lies in [[0, 254]]. *)
Theorem Code_DeCode_masks (data : list byte) len seed :
  Z.of_nat (length data) = len → len < 2 ^ 64 →
  let rs := draws (length data) seed in
  Code data len seed
  = Ok (zip_with (λ c r, char_of_Z (Z_of_char c + r mod 255)) data rs,
        seed_after (length data) seed)
  ∧ DeCode data len seed
    = Ok (zip_with (λ c r, char_of_Z (Z_of_char c - r mod 255)) data rs,
          seed_after (length data) seed)
  ∧ Forall (λ r, 0 ≤ r mod 255 ≤ 254) rs
  ∧ ∀ z, 0 ≤ Z_of_char (char_of_Z z) < 256 ∧ Z_of_char (char_of_Z z) = z mod 256.
Proof.
  intros Hd Hmax rs.
  assert (Hzip : ∀ (op : byte → byte → byte) (f : byte → Z → byte),
            (∀ c r, 0 ≤ r → op c (mask r) = f c r) →
            zip_with op data (mask <$> rs) = zip_with f data rs).
  { intros op f Hop. pose proof (draws_range (length data) seed) as Hr.
    fold rs in Hr. clearbody rs. clear Hd.
    revert rs Hr. induction data as [|c d IH]; intros [|r rs] Hr; try done.
    apply Forall_cons in Hr as [Hr0 Hr]. cbn.
    rewrite Hop by lia. f_equal. by apply IH. }
  split; [|split; [|split]].
  - rewrite (Code_spec data len seed Hd Hmax). f_equal. f_equal.
    apply Hzip. intros c r Hr. unfold char_add. by rewrite mask_value.
  - rewrite (DeCode_spec data len seed Hd Hmax). f_equal. f_equal.
    apply Hzip. intros c r Hr. unfold char_sub. by rewrite mask_value.
  - eapply Forall_impl; [apply draws_range|]. intros r Hr. cbn beta in *.
    pose proof (Z.mod_pos_bound r 255). lia.
  - intros z. rewrite Z_of_char_of_Z. split; [|done].
    apply Z.mod_pos_bound. lia.
Qed.

(** ** Encrypt and Decrypt *)

(** C1 (round-trip law), at the empty buffer.  [Encrypt] on the empty
    buffer with the keys of the self-test divides by zero in the table
    of its first [Shuffle]: the round trip yields no buffer. *)
Theorem round_trip_empty_buffer seed :
  round_trip [] 0 test_keys 4 seed = Err DivByZero.
Proof. unfold round_trip. by rewrite Encrypt_0. Qed.

(** X1.  On every buffer that is not empty (and whose table [malloc]
    serves) and for every key list, also the empty one, [Decrypt] after
    [Encrypt] returns the buffer [Encrypt] was given. *)
Theorem round_trip_nonempty (data : list byte) len (keys : list Z) kn seed :
  1 ≤ len ≤ MAX_LEN → Z.of_nat (length data) = len →
  Z.of_nat (length keys) = kn → kn < 2 ^ 64 →
  ∃ seed', round_trip data len keys kn seed = Ok (data, seed').
Proof.
  intros Hlen Hd Hk Hkn. unfold round_trip.
  destruct (Decrypt_Encrypt_nonempty data len keys kn seed Hlen Hd Hk Hkn)
    as (d & s & He & _ & Hdec).
  rewrite He. cbn [mbind result_bind]. apply Hdec.
Qed.

(** C2 (empty buffer).  With [len = 0] and a key list that is not empty,
    [Encrypt] and [Decrypt] both stop on a division by zero, in the table
    of [Shuffle] and of [DeShuffle]. *)
Theorem empty_buffer_divides_by_zero (keys : list Z) kn seed :
  Z.of_nat (length keys) = kn → 1 ≤ kn < 2 ^ 64 →
  Encrypt [] 0 keys kn seed = Err DivByZero
  ∧ Decrypt [] 0 keys kn seed = Err DivByZero.
Proof. intros Hk Hkn. split; [by apply Encrypt_0|by apply Decrypt_0]. Qed.

(** * Further properties *)

(** ** Inverses in the other direction *)

Lemma char_add_sub c m : char_add (char_sub c m) m = c.
Proof.
  unfold char_sub, char_add. rewrite Z_of_char_of_Z.
  rewrite <- char_of_Z_mod, Zplus_mod_idemp_l.
  replace (Z_of_char c - Z_of_char m + Z_of_char m) with (Z_of_char c) by lia.
  rewrite char_of_Z_mod. apply char_of_Z_of_char.
Qed.

Lemma zip_add_sub (data ms : list byte) :
  length ms = length data →
  zip_with char_add (zip_with char_sub data ms) ms = data.
Proof.
  revert ms. induction data as [|c data IH]; intros [|m ms] Hl; simplify_eq/=;
    [done|]. by rewrite char_add_sub, IH.
Qed.

Lemma DeCode_then_Code (data : list byte) len seed :
  Z.of_nat (length data) = len → len < 2 ^ 64 →
  ∃ data',
    DeCode data len seed = Ok (data', seed_after (length data) seed)
    ∧ length data' = length data
    ∧ Code data' len seed = Ok (data, seed_after (length data) seed).
Proof.
  intros Hd Hmax.
  assert (Hm : length (mask <$> draws (length data) seed) = length data)
    by (by rewrite length_fmap, draws_length).
  assert (Hl : length (zip_with char_sub data (mask <$> draws (length data) seed))
               = length data)
    by (rewrite length_zip_with; lia).
  eexists. split; [by apply DeCode_spec|]. split; [done|].
  rewrite Code_spec by (rewrite ?Hl; done).
  by rewrite Hl, zip_add_sub.
Qed.

Lemma DeShuffle_then_Shuffle (data : list byte) len seed :
  1 ≤ len ≤ MAX_LEN → Z.of_nat (length data) = len →
  ∃ data',
    DeShuffle data len seed = Ok (data', seed_after (Z.to_nat (len - 1)) seed)
    ∧ length data' = length data
    ∧ Shuffle data' len seed = Ok (data, seed_after (Z.to_nat (len - 1)) seed).
Proof.
  intros Hlen Hd. pose proof Hlen as Hlen'. unfold MAX_LEN in Hlen'.
  set (exTable := Some (Some <$> exchange_entries len seed)).
  pose proof (for_down_mfold (Shuffle_body exTable len) (Z.to_nat (len - 1))) as Hdown.
  pose proof (for_up_mfold (DeShuffle_body exTable len) (Z.to_nat (len - 1)) 1) as Hup.
  rewrite Z2Nat.id in Hdown, Hup by lia.
  replace (1 + (len - 1)) with len in Hup by lia.
  destruct (mfold_inverse (DeShuffle_body exTable len) (Shuffle_body exTable len)
              (λ d, length d = Z.to_nat len) eq
              (seqZ 1 (len - 1))) with (s := data)
    as (data' & Hs & HP & Hinv); [|lia|].
  - intros i Hin d Hld. apply elem_of_seqZ in Hin.
    destruct (Shuffle_body_step (exchange_entries len seed) len i d
                (exchange_entries_valid len seed))
      as (d' & E1 & L1 & _ & B1); [lia..|done|].
    exists d'. rewrite DeShuffle_body_eq by lia.
    split; [done|]. split; [done|]. intros t' ->. by exists d.
  - exists data'. unfold Shuffle, DeShuffle.
    rewrite GenExchangeTable_spec by done. cbn [mbind result_bind].
    fold exTable. rewrite Hup, Hs by lia. cbn [mbind result_bind].
    split; [done|]. split; [lia|].
    rewrite (wrapsz_small (len - 1)), Hdown by lia.
    destruct (Hinv data' eq_refl) as (t & Ht & ->). by rewrite Ht.
Qed.

Lemma round_inverse_back len (keys : list Z) kn i (data : list byte) seed :
  1 ≤ len ≤ MAX_LEN → Z.of_nat (length data) = len →
  Z.of_nat (length keys) = kn → kn < 2 ^ 64 → 0 ≤ i < kn →
  ∃ s', Decrypt_body len keys kn i (data, seed) = Ok s'
        ∧ length s'.1 = length data
        ∧ ∀ t', t'.1 = s'.1 →
            ∃ t, Encrypt_body len keys kn i t' = Ok t ∧ t.1 = data.
Proof.
  intros Hlen Hd Hk Hkn Hi. pose proof Hlen as Hlen'. unfold MAX_LEN in Hlen'.
  destruct (lookup_lt_is_Some_2 keys (Z.to_nat i)) as [k1 Hk1]; [lia|].
  destruct (lookup_lt_is_Some_2 keys (Z.to_nat (kn - 1 - i))) as [k2 Hk2]; [lia|].
  assert (L1 : load keys i = Ok k1) by (apply load_lookup; [lia|done]).
  assert (L2 : load keys (wrapsz (wrapsz (kn - 1) - i)) = Ok k2).
  { rewrite (wrapsz_small (kn - 1)), (wrapsz_small (kn - 1 - i)) by lia.
    apply load_lookup; [lia|done]. }
  destruct (DeCode_then_Code data len k2) as (d1 & C1 & Ld1 & C2); [lia..|].
  destruct (DeShuffle_then_Shuffle d1 len k1 Hlen) as (d2 & S1 & Ld2 & S2); [lia|].
  exists (d2, seed_after (Z.to_nat (len - 1)) k1). unfold Decrypt_body.
  rewrite L2. cbn [mbind result_bind]. rewrite C1. cbn [mbind result_bind].
  rewrite L1. cbn [mbind result_bind]. split; [done|]. split; [cbn; lia|].
  intros [d s] Ht. cbn in Ht. subst d. unfold Encrypt_body.
  rewrite L1. cbn [mbind result_bind]. rewrite S2. cbn [mbind result_bind].
  rewrite L2. cbn [mbind result_bind]. rewrite C2. by eexists.
Qed.

Lemma Encrypt_Decrypt_nonempty (data : list byte) len (keys : list Z) kn seed :
  1 ≤ len ≤ MAX_LEN → Z.of_nat (length data) = len →
  Z.of_nat (length keys) = kn → kn < 2 ^ 64 →
  ∃ data' seed',
    Decrypt data len keys kn seed = Ok (data', seed')
    ∧ length data' = length data
    ∧ ∀ seed2, ∃ seed3, Encrypt data' len keys kn seed2 = Ok (data, seed3).
Proof.
  intros Hlen Hd Hk Hkn. unfold Encrypt, Decrypt.
  pose proof (for_up_mfold (Encrypt_body len keys kn) (Z.to_nat kn) 0) as Hup.
  pose proof (for_postdec_mfold (Decrypt_body len keys kn) (Z.to_nat kn)) as Hdn.
  rewrite Z2Nat.id in Hup, Hdn by lia. rewrite Z.add_0_l in Hup.
  destruct (mfold_inverse (Decrypt_body len keys kn) (Encrypt_body len keys kn)
              (λ s, length s.1 = length data) (λ t s, t.1 = s.1)
              (reverse (seqZ 0 kn))) with (s := (data, seed))
    as ([data' seed'] & He & HP & Hinv); [|done|].
  - intros i Hin [d s] Hs. apply elem_of_reverse, elem_of_seqZ in Hin. cbn in Hs.
    destruct (round_inverse_back len keys kn i d s) as (s' & E1 & L1 & B1);
      [done|lia|done|done|lia|].
    exists s'. split; [done|]. split; [lia|]. exact B1.
  - exists data', seed'. rewrite Hdn, He by lia. split; [done|]. split; [done|].
    intros seed2. rewrite Hup by lia.
    destruct (Hinv (data', seed2) eq_refl) as ([d s3] & Ht & Hd').
    rewrite reverse_involutive in Ht. cbn in Hd'. subst d. by exists s3.
Qed.

(** ** Key strings: what is accepted *)

Lemma HexToUInt32_body_nonhex order str start i v c :
  load_str str (wrapsz (start + i)) = Ok c → hex_digit_value c = None →
  HexToUInt32_body order str start i v = Err BadKeyChar.
Proof.
  intros Hc Hd. unfold HexToUInt32_body. rewrite Hc. cbn [mbind result_bind].
  cbv zeta. unfold hex_digit_value in Hd. cbv zeta in Hd.
  change (char_code "A") with 65. change (char_code "F") with 70.
  change (char_code "a") with 97. change (char_code "f") with 102.
  change (char_code "0") with 48. change (char_code "9") with 57.
  repeat case_match; simplify_eq; try lia; done.
Qed.

Lemma load_str_lookup (str : list ascii) j c :
  0 ≤ j < 2 ^ 64 → (str ++ [Ascii.zero]) !! Z.to_nat j = Some c →
  load_str str (wrapsz j) = Ok c.
Proof.
  intros Hj Hc. unfold load_str. rewrite wrapsz_small by lia.
  apply load_lookup; [lia|done].
Qed.

Lemma HexToUInt32_loop_ok order (str : list ascii) start cs : ∀ a v,
  0 ≤ start → 0 ≤ a → start + a + Z.of_nat (length cs) < 2 ^ 64 →
  (∀ k c, cs !! k = Some c →
          (str ++ [Ascii.zero]) !! Z.to_nat (start + a + Z.of_nat k) = Some c) →
  Forall (λ c, is_Some (hex_digit_value c)) cs →
  0 ≤ v < 2 ^ 32 →
  ∃ v', mfold (HexToUInt32_body order str start) (seqZ a (Z.of_nat (length cs))) v
        = Ok v' ∧ 0 ≤ v' < 2 ^ 32.
Proof.
  induction cs as [|c cs IH]; intros a v Hs Ha Hmax Hcs Hhex Hv.
  - exists v. by cbn.
  - apply Forall_cons in Hhex as [[d Hd] Hhex].
    rewrite seqZ_cons by (cbn [length]; lia). cbn [mfold].
    erewrite HexToUInt32_body_hex; [| |exact Hd].
    2:{ apply load_str_lookup; [cbn [length] in Hmax; lia|].
        specialize (Hcs 0%nat c eq_refl).
        by replace (start + a + Z.of_nat 0) with (start + a) in Hcs by lia. }
    cbn [mbind result_bind].
    replace (Z.pred (Z.of_nat (length (c :: cs)))) with (Z.of_nat (length cs))
      by (cbn [length]; lia).
    apply IH; [lia|lia|cbn [length] in Hmax; lia| |done|].
    + intros k c' Hk. specialize (Hcs (S k) c' Hk).
      by replace (start + Z.succ a + Z.of_nat k)
        with (start + a + Z.of_nat (S k)) by lia.
    + unfold wrap32. apply Z.mod_pos_bound. lia.
Qed.

Lemma HexToUInt32_loop_bad order (str : list ascii) start cs : ∀ a v rest,
  0 ≤ start → 0 ≤ a → start + a + Z.of_nat (length cs) < 2 ^ 64 →
  (∀ k c, cs !! k = Some c →
          (str ++ [Ascii.zero]) !! Z.to_nat (start + a + Z.of_nat k) = Some c) →
  ¬ Forall (λ c, is_Some (hex_digit_value c)) cs →
  mfold (HexToUInt32_body order str start)
    (seqZ a (Z.of_nat (length cs)) ++ rest) v
  = Err BadKeyChar.
Proof.
  induction cs as [|c cs IH]; intros a v rest Hs Ha Hmax Hcs Hbad.
  - destruct Hbad. constructor.
  - rewrite seqZ_cons by (cbn [length]; lia). cbn [app mfold].
    assert (Hl : load_str str (wrapsz (start + a)) = Ok c).
    { apply load_str_lookup; [cbn [length] in Hmax; lia|].
      specialize (Hcs 0%nat c eq_refl).
      by replace (start + a + Z.of_nat 0) with (start + a) in Hcs by lia. }
    destruct (hex_digit_value c) as [d|] eqn:Hd.
    + erewrite HexToUInt32_body_hex; [|exact Hl|exact Hd].
      cbn [mbind result_bind].
      replace (Z.pred (Z.of_nat (length (c :: cs)))) with (Z.of_nat (length cs))
        by (cbn [length]; lia).
      apply IH; [lia|lia|cbn [length] in Hmax; lia| |].
      * intros k c' Hk. specialize (Hcs (S k) c' Hk).
        by replace (start + Z.succ a + Z.of_nat k)
          with (start + a + Z.of_nat (S k)) by lia.
      * intros Hall. apply Hbad. constructor; [by rewrite Hd|done].
    + by erewrite HexToUInt32_body_nonhex.
Qed.

Lemma HexToUInt32_hex order (str : list ascii) start :
  0 ≤ start → start + 8 ≤ Z.of_nat (length str) →
  Z.of_nat (length str) < 2 ^ 31 →
  Forall (λ c, is_Some (hex_digit_value c)) (take 8 (drop (Z.to_nat start) str)) →
  ∃ v, HexToUInt32 order str start = Ok v ∧ 0 ≤ v < 2 ^ 32.
Proof.
  intros Hs Hlen Hmax Hhex. unfold HexToUInt32.
  rewrite (for_up_mfold (HexToUInt32_body order str start) 8 0) by lia.
  set (cs := take 8 (drop (Z.to_nat start) str)) in *.
  assert (Hl8 : length cs = 8%nat)
    by (unfold cs; rewrite length_take, length_drop; lia).
  replace (Z.of_nat 8) with (Z.of_nat (length cs)) by (by rewrite Hl8).
  apply (HexToUInt32_loop_ok order str start cs 0 0); [lia..| |done|lia].
  intros k c Hk. pose proof (lookup_lt_Some _ _ _ Hk) as Hlt.
  unfold cs in Hk. rewrite lookup_take_lt, lookup_drop in Hk by lia.
  rewrite lookup_app_l by lia. rewrite <- Hk. f_equal. lia.
Qed.

Lemma HexToUInt32_nonhex order (str : list ascii) start :
  0 ≤ start ≤ Z.of_nat (length str) → Z.of_nat (length str) < 2 ^ 31 →
  ¬ (length (take 8 (drop (Z.to_nat start) str)) = 8%nat
     ∧ Forall (λ c, is_Some (hex_digit_value c))
         (take 8 (drop (Z.to_nat start) str))) →
  HexToUInt32 order str start = Err BadKeyChar.
Proof.
  intros Hs Hmax Hbad. unfold HexToUInt32.
  rewrite (for_up_mfold (HexToUInt32_body order str start) 8 0) by lia.
  set (cs := take 8 (drop (Z.to_nat start) (str ++ [Ascii.zero]))).
  assert (Hlook : ∀ k c, cs !! k = Some c →
            (str ++ [Ascii.zero]) !! Z.to_nat (start + 0 + Z.of_nat k) = Some c).
  { intros k c Hk. pose proof (lookup_lt_Some _ _ _ Hk) as Hlt.
    unfold cs in Hk, Hlt. rewrite length_take in Hlt.
    rewrite lookup_take_lt, lookup_drop in Hk by lia.
    rewrite <- Hk. f_equal. lia. }
  assert (Hcs : (length cs ≤ 8)%nat) by (unfold cs; rewrite length_take; lia).
  assert (Hnot : ¬ Forall (λ c, is_Some (hex_digit_value c)) cs).
  { intros Hall. apply Hbad.
    destruct (decide (start + 8 ≤ Z.of_nat (length str))) as [Hle|Hgt].
    - assert (Heq : cs = take 8 (drop (Z.to_nat start) str)).
      { unfold cs. rewrite drop_app_le by lia. rewrite take_app_le; [done|].
        rewrite length_drop. lia. }
      rewrite <- Heq. split; [|done].
      rewrite Heq, length_take, length_drop. lia.
    - exfalso. assert (Hz : Ascii.zero ∈ cs).
      { unfold cs. rewrite drop_app_le by lia.
        rewrite take_ge by (rewrite length_app, length_drop; cbn; lia).
        apply elem_of_app. right. constructor. }
      rewrite Forall_forall in Hall. by destruct (Hall _ Hz) as [d Hd]. }
  replace (seqZ 0 (Z.of_nat 8))
    with (seqZ 0 (Z.of_nat (length cs)) ++
          seqZ (Z.of_nat (length cs)) (8 - Z.of_nat (length cs))).
  - apply (HexToUInt32_loop_bad order str start cs 0 0); [lia..|done|done].
  - rewrite <- (seqZ_app 0) by lia. f_equal. lia.
Qed.

(** ** The program: key splitting *)

(** A loop stops with the error [e] if one of its iterations always
    does and the others can only succeed or stop with [e]. *)
Lemma mfold_error {St} (body : Z → St → result St) (P : St → Prop) e l :
  (∀ i, i ∈ l → ∀ s, P s →
     (∃ s', body i s = Ok s' ∧ P s') ∨ body i s = Err e) →
  ∀ i0, i0 ∈ l → (∀ s, P s → body i0 s = Err e) →
  ∀ s, P s → mfold body l s = Err e.
Proof.
  induction l as [|i l IH]; intros Hstep i0 Hin Hbad s Hs.
  - by apply elem_of_nil in Hin.
  - cbn [mfold].
    destruct (Hstep i (list_elem_of_here _ _) s Hs) as [(s' & E & Ps')|E];
      rewrite E; [|done]. cbn [mbind result_bind].
    apply elem_of_cons in Hin as [->|Hin].
    + rewrite (Hbad s Hs) in E. discriminate.
    + apply (IH (λ k Hk, Hstep k (list_elem_of_further _ _ _ Hk)) i0 Hin Hbad s' Ps').
Qed.

Lemma int_of_size_t_small z : 0 ≤ z < 2 ^ 31 → int_of_size_t z = z.
Proof.
  intros Hz. unfold int_of_size_t, wrap32. cbv zeta.
  rewrite Z.mod_small by lia.
  by replace (z <? 2 ^ 31) with true by (symmetry; apply Z.ltb_lt; lia).
Qed.

Lemma block_store_cell {A} (pre : list A) (rest : list (option A)) i x :
  Z.of_nat (length pre) = i →
  block_store (Some ((Some <$> pre) ++ None :: rest)) i x
  = Ok (Some ((Some <$> pre ++ [x]) ++ rest)).
Proof.
  intros Hi. unfold block_store.
  assert (Hidx : Z.to_nat i = (length (Some <$> pre) + 0)%nat)
    by (rewrite length_fmap; lia).
  erewrite store_lookup; [|lia|].
  2:{ rewrite Hidx, lookup_app_r by lia.
      replace (length (Some <$> pre) + 0 - length (Some <$> pre))%nat
        with 0%nat by lia. reflexivity. }
  cbn [mbind result_bind]. rewrite Hidx, insert_app_r. cbn [insert list_insert].
  by rewrite fmap_app, <- app_assoc.
Qed.

Lemma main_keys_loop order (key : list ascii) m : ∀ pre,
  (∀ i, Z.of_nat (length pre) ≤ i < Z.of_nat (length pre) + Z.of_nat m →
        ∃ k, HexToUInt32 order key (int_of_size_t (wrapsz (i * 8))) = Ok k) →
  ∃ ks, mfold (main_keys_body order key)
          (seqZ (Z.of_nat (length pre)) (Z.of_nat m))
          (Some ((Some <$> pre) ++ replicate m None))
        = Ok (Some (Some <$> pre ++ ks))
        ∧ length ks = m
        ∧ ∀ j k, ks !! j = Some k →
            HexToUInt32 order key
              (int_of_size_t (wrapsz ((Z.of_nat (length pre) + Z.of_nat j) * 8)))
            = Ok k.
Proof.
  induction m as [|m IH]; intros pre Hok.
  - exists []. cbn. rewrite !app_nil_r. split; [done|]. split; [done|].
    intros j k Hj. by rewrite lookup_nil in Hj.
  - destruct (Hok (Z.of_nat (length pre))) as [k0 Hk0]; [lia|].
    rewrite seqZ_cons by lia. cbn [mfold replicate].
    assert (Hb : main_keys_body order key (Z.of_nat (length pre))
                   (Some ((Some <$> pre) ++ None :: replicate m None))
                 = Ok (Some ((Some <$> pre ++ [k0]) ++ replicate m None))).
    { unfold main_keys_body. rewrite Hk0. cbn [mbind result_bind].
      by apply block_store_cell. }
    rewrite Hb. cbn [mbind result_bind].
    destruct (IH (pre ++ [k0])) as (ks & Hks & Hl & Hv).
    { intros i Hi. apply Hok. rewrite length_app in Hi. cbn [length] in Hi. lia. }
    exists (k0 :: ks).
    replace (Z.succ (Z.of_nat (length pre)))
      with (Z.of_nat (length (pre ++ [k0])))
      by (rewrite length_app; cbn [length]; lia).
    replace (Z.pred (Z.of_nat (S m))) with (Z.of_nat m) by lia.
    rewrite Hks, <- app_assoc. split; [done|]. split; [cbn; lia|].
    intros [|j] k Hj; simplify_eq/=.
    + by replace (Z.of_nat (length pre) + Z.of_nat 0)
        with (Z.of_nat (length pre)) by lia.
    + specialize (Hv j k Hj). rewrite length_app in Hv. cbn [length] in Hv.
      by replace (Z.of_nat (length pre) + Z.of_nat (S j))
        with (Z.of_nat (length pre + 1) + Z.of_nat j) by lia.
Qed.

Lemma main_keys_hex order (key : list ascii) :
  Forall (λ c, is_Some (hex_digit_value c)) key →
  Z.of_nat (length key) mod 8 = 0 → Z.of_nat (length key) < 2 ^ 31 →
  ∃ ks, main_keys order key
        = Ok (Some (Some <$> ks), Z.of_nat (length key) / 8)
        ∧ Z.of_nat (length ks) = Z.of_nat (length key) / 8
        ∧ ∀ g k, ks !! g = Some k →
            HexToUInt32 order key (8 * Z.of_nat g) = Ok k.
Proof.
  intros Hhex Hmod Hmax. unfold main_keys, strlen. cbv zeta.
  rewrite (wrapsz_small (Z.of_nat (length key))) by lia.
  set (kn := Z.of_nat (length key) / 8).
  assert (Hkn : 0 ≤ kn ∧ Z.of_nat (length key) = 8 * kn).
  { unfold kn. pose proof (Z.div_mod (Z.of_nat (length key)) 8). lia. }
  rewrite (wrapsz_small (kn * 4)) by lia.
  unfold malloc_cells, PTRDIFF_MAX.
  replace (2 ^ 63 - 1 <? kn * 4) with false by (symmetry; apply Z.ltb_ge; lia).
  rewrite Z.div_mul by lia.
  pose proof (for_up_mfold (main_keys_body order key) (Z.to_nat kn) 0) as Hup.
  rewrite Z2Nat.id, Z.add_0_l in Hup by lia. rewrite Hup by lia.
  destruct (main_keys_loop order key (Z.to_nat kn) []) as (ks & Hks & Hl & Hv).
  { intros i Hi. cbn [length] in Hi.
    rewrite wrapsz_small, int_of_size_t_small by lia.
    destruct (HexToUInt32_hex order key (i * 8)) as (v & Hv & _); [lia..| |by exists v].
    by apply Forall_take, Forall_drop. }
  cbn [length fmap list_fmap app] in Hks. rewrite Z2Nat.id in Hks by lia.
  exists ks. split; [|split; [lia|]].
  - etrans; [|reflexivity].
    change (Z.of_nat 0) with 0 in Hks. by rewrite Hks.
  - intros g k Hg. specialize (Hv g k Hg). cbn [length] in Hv.
    pose proof (lookup_lt_Some _ _ _ Hg) as Hlt.
    rewrite wrapsz_small, int_of_size_t_small in Hv by lia.
    by replace (8 * Z.of_nat g) with ((Z.of_nat 0 + Z.of_nat g) * 8) by lia.
Qed.

Lemma main_keys_nonhex order (key : list ascii) :
  ¬ Forall (λ c, is_Some (hex_digit_value c)) key →
  Z.of_nat (length key) mod 8 = 0 → Z.of_nat (length key) < 2 ^ 31 →
  main_keys order key = Err BadKeyChar.
Proof.
  intros Hbad Hmod Hmax. unfold main_keys, strlen. cbv zeta.
  rewrite (wrapsz_small (Z.of_nat (length key))) by lia.
  set (kn := Z.of_nat (length key) / 8).
  assert (Hkn : 0 ≤ kn ∧ Z.of_nat (length key) = 8 * kn).
  { unfold kn. pose proof (Z.div_mod (Z.of_nat (length key)) 8). lia. }
  rewrite (wrapsz_small (kn * 4)) by lia.
  unfold malloc_cells, PTRDIFF_MAX.
  replace (2 ^ 63 - 1 <? kn * 4) with false by (symmetry; apply Z.ltb_ge; lia).
  rewrite Z.div_mul by lia.
  pose proof (for_up_mfold (main_keys_body order key) (Z.to_nat kn) 0) as Hup.
  rewrite Z2Nat.id, Z.add_0_l in Hup by lia. rewrite Hup by lia.
  apply not_Forall_Exists in Hbad; [|apply _].
  apply Exists_exists in Hbad as (c & Hc & Hnc).
  apply list_elem_of_lookup in Hc as [j Hj].
  pose proof (lookup_lt_Some _ _ _ Hj) as Hjlt.
  set (g := Z.of_nat j / 8).
  assert (Hg : 0 ≤ g < kn ∧ 8 * g ≤ Z.of_nat j < 8 * g + 8).
  { unfold g. pose proof (Z.div_mod (Z.of_nat j) 8).
    pose proof (Z.mod_pos_bound (Z.of_nat j) 8). lia. }
  enough (Hloop : mfold (main_keys_body order key) (seqZ 0 kn)
                    (Some (replicate (Z.to_nat kn) None)) = Err BadKeyChar)
    by (by rewrite Hloop).
  apply (mfold_error (main_keys_body order key)
           (λ blk, ∃ cells : list (option Z),
              blk = Some cells ∧ length cells = Z.to_nat kn)
           BadKeyChar (seqZ 0 kn)) with (i0 := g).
  - intros i Hi blk (cells & -> & Hcells). apply elem_of_seqZ in Hi.
    unfold main_keys_body.
    rewrite wrapsz_small, int_of_size_t_small by lia.
    destruct (decide (Forall (λ c, is_Some (hex_digit_value c))
                        (take 8 (drop (Z.to_nat (i * 8)) key)))) as [Hok|Hno].
    + left. destruct (HexToUInt32_hex order key (i * 8)) as (v & Hv & _);
        [lia..|done|].
      rewrite Hv. cbn [mbind result_bind]. unfold block_store.
      destruct (lookup_lt_is_Some_2 cells (Z.to_nat i)) as [x Hx]; [lia|].
      rewrite (store_lookup cells i (Some v) x); [|lia|done].
      cbn [mbind result_bind]. eexists. split; [done|].
      eexists. split; [done|]. by rewrite length_insert.
    + right. rewrite HexToUInt32_nonhex; [done|lia|lia|]. by intros [_ ?].
  - apply elem_of_seqZ. lia.
  - intros blk _. unfold main_keys_body.
    rewrite wrapsz_small, int_of_size_t_small by lia.
    rewrite HexToUInt32_nonhex; [done|lia|lia|]. intros [_ Hall].
    rewrite Forall_forall in Hall.
    destruct (Hall c) as [d Hd]; [|apply Hnc; by exists d].
    apply list_elem_of_lookup. exists (j - Z.to_nat (g * 8))%nat.
    rewrite lookup_take_lt, lookup_drop by lia.
    rewrite <- Hj. f_equal. lia.
  - exists (replicate (Z.to_nat kn) None). by rewrite length_replicate.
Qed.

(** ** The program: input and output *)

Lemma initialised_fmap {A} (l : list A) : initialised (Some <$> l) = Ok l.
Proof. induction l as [|x l IH]; [done|]. cbn. by rewrite IH. Qed.

Lemma block_prefix_written {A} (l : list A) m :
  block_prefix (Some ((Some <$> l) ++ replicate m None)) (Z.of_nat (length l))
  = Ok l.
Proof.
  unfold block_prefix.
  replace (Z.of_nat (length ((Some <$> l) ++ replicate m None))
           <? Z.of_nat (length l)) with false.
  - rewrite Nat2Z.id, take_app_length' by (by rewrite length_fmap).
    apply initialised_fmap.
  - symmetry. apply Z.ltb_ge. rewrite length_app, length_fmap. lia.
Qed.

(** The read loop stores every byte of the input, whatever its value,
    and never writes outside the block: it is entered with room for two
    more bytes and doubles the block when room for one is left. *)
Lemma main_read_all stdin : ∀ (pre : list byte) m allocSize,
  allocSize = Z.of_nat (length pre) + Z.of_nat m → (2 ≤ m)%nat →
  Z.of_nat (length pre) + Z.of_nat (length stdin) < 2 ^ 61 →
  ∃ m', main_read stdin (Some ((Some <$> pre) ++ replicate m None))
          allocSize (Z.of_nat (length pre))
        = Ok (Some ((Some <$> pre ++ stdin) ++ replicate m' None),
              Z.of_nat (length (pre ++ stdin))).
Proof.
  induction stdin as [|b stdin IH]; intros pre m allocSize Ha Hm Hmax.
  - exists m. cbn. by rewrite app_nil_r.
  - cbn [main_read]. cbv zeta.
    pose proof (Z_of_char_range b) as Hb.
    assert (Hc : wrap32 (Z_of_char b) = Z_of_char b)
      by (unfold wrap32; apply Z.mod_small; lia).
    rewrite Hc. change (wrap32 EOF) with (2 ^ 32 - 1).
    replace (Z_of_char b =? 2 ^ 32 - 1) with false
      by (symmetry; apply Z.eqb_neq; lia).
    rewrite char_of_Z_of_char.
    destruct m as [|m]; [lia|]. cbn [replicate].
    rewrite block_store_cell by done. cbn [mbind result_bind].
    cbn [length] in Hmax.
    rewrite (wrapsz_small (Z.of_nat (length pre) + 1)) by lia.
    rewrite (wrapsz_small (Z.of_nat (length pre) + 1 + 1)) by lia.
    assert (Hpre : Z.of_nat (length pre) + 1 = Z.of_nat (length (pre ++ [b])))
      by (rewrite length_app; cbn [length]; lia).
    assert (Happ : ∀ k, (pre ++ [b]) ++ k = pre ++ b :: k)
      by (intros k; by rewrite <- app_assoc).
    destruct (Z.eqb_spec allocSize (Z.of_nat (length pre) + 1 + 1)) as [He|Hne].
    + rewrite (wrapsz_small (allocSize * 2)) by lia.
      rewrite (wrapsz_small (allocSize * 2 * 1)) by lia.
      unfold realloc_cells, PTRDIFF_MAX.
      replace (2 ^ 63 - 1 <? allocSize * 2 * 1) with false
        by (symmetry; apply Z.ltb_ge; lia).
      cbv zeta. rewrite take_ge.
      2:{ rewrite length_app, length_fmap, length_replicate, Z.div_1_r. lia. }
      rewrite <- app_assoc, <- replicate_add.
      destruct (IH (pre ++ [b])
                  (m + (Z.to_nat (allocSize * 2 * 1 / 1)
                        - length ((Some <$> pre ++ [b]) ++ replicate m None)))%nat
                  (allocSize * 2)) as (m' & Hm').
      * rewrite ?length_app, ?length_fmap, ?length_replicate, ?length_app,
          ?Z.div_1_r. cbn [length]. lia.
      * rewrite ?length_app, ?length_fmap, ?length_replicate, ?length_app,
          ?Z.div_1_r. cbn [length]. lia.
      * rewrite length_app. cbn [length]. lia.
      * exists m'. rewrite Hpre, Hm'. by rewrite !Happ.
    + destruct (IH (pre ++ [b]) m allocSize) as (m' & Hm').
      * rewrite length_app. cbn [length]. lia.
      * lia.
      * rewrite length_app. cbn [length]. lia.
      * exists m'. rewrite Hpre, Hm'. by rewrite !Happ.
Qed.

Lemma main_print_loop (data : list byte) : ∀ suf pre out,
  data = pre ++ suf →
  mfold (λ i out, c ← load data i; Ok (out ++ [c]))
    (seqZ (Z.of_nat (length pre)) (Z.of_nat (length suf))) out
  = Ok (out ++ suf).
Proof.
  induction suf as [|c suf IH]; intros pre out Hd.
  - cbn. by rewrite app_nil_r.
  - rewrite seqZ_cons by (cbn [length]; lia). cbn [mfold].
    rewrite (load_lookup data _ c); [|lia|].
    2:{ rewrite Nat2Z.id, Hd. by rewrite list_lookup_middle. }
    cbn [mbind result_bind].
    replace (Z.succ (Z.of_nat (length pre)))
      with (Z.of_nat (length (pre ++ [c])))
      by (rewrite length_app; cbn [length]; lia).
    replace (Z.pred (Z.of_nat (length (c :: suf)))) with (Z.of_nat (length suf))
      by (cbn [length]; lia).
    rewrite (IH (pre ++ [c])) by (by rewrite <- app_assoc).
    by rewrite <- app_assoc.
Qed.

Lemma main_print_all (data : list byte) :
  Z.of_nat (length data) < 2 ^ 64 →
  main_print data (Z.of_nat (length data)) = Ok data.
Proof.
  intros Hmax. unfold main_print.
  pose proof (for_up_mfold (λ i out, c ← load data i; Ok (out ++ [c]))
                (length data) 0) as Hup.
  rewrite Z.add_0_l in Hup. rewrite Nat2Z.id, Hup by lia.
  apply (main_print_loop data data [] []). done.
Qed.

(** ** The program: arguments *)

Lemma main_two_args order (p key : list ascii) stdin :
  main order [p; key] stdin
  = if strlen key mod 8 =? 0 then main_run order 0 key stdin
    else Ok (EXIT_FAILURE, []).
Proof.
  unfold main. cbv zeta.
  change (Z.of_nat (length [p; key])) with 2.
  change (2 =? 3) with false. change (2 =? 2) with true.
  cbn [mbind result_bind negb andb].
  change (load [p; key] (1 + 0)) with (Ok (A := list ascii) key).
  cbn [mbind result_bind].
  by destruct (strlen key mod 8 =? 0).
Qed.

Lemma main_three_args order (p a key : list ascii) stdin :
  main order [p; a; key] stdin
  = if streq a ["-"; "d"]%char
    then if strlen key mod 8 =? 0 then main_run order 1 key stdin
         else Ok (EXIT_FAILURE, [])
    else Ok (EXIT_FAILURE, []).
Proof.
  unfold main. cbv zeta.
  change (Z.of_nat (length [p; a; key])) with 3.
  change (3 =? 3) with true. change (3 =? 2) with false.
  change (load [p; a; key] 1) with (Ok (A := list ascii) a).
  cbn [mbind result_bind].
  destruct (streq a ["-"; "d"]%char).
  - change (negb false && (1 =? 0)) with false.
    change (load [p; a; key] (1 + 1)) with (Ok (A := list ascii) key).
    cbn [mbind result_bind].
    by destruct (strlen key mod 8 =? 0).
  - reflexivity.
Qed.

Lemma main_other_args order (argv : list (list ascii)) stdin :
  length argv ≠ 2%nat → length argv ≠ 3%nat →
  main order argv stdin = Ok (EXIT_FAILURE, []).
Proof.
  intros H2 H3. unfold main. cbv zeta.
  replace (Z.of_nat (length argv) =? 3) with false
    by (symmetry; apply Z.eqb_neq; lia).
  cbn [mbind result_bind].
  replace (Z.of_nat (length argv) =? 2) with false
    by (symmetry; apply Z.eqb_neq; lia).
  reflexivity.
Qed.

Lemma strlen_length (key : list ascii) :
  Z.of_nat (length key) < 2 ^ 31 → strlen key = Z.of_nat (length key).
Proof. intros H. unfold strlen. apply wrapsz_small. lia. Qed.

(** What [main] does after its arguments are accepted, once the key is
    split into the subkeys [ks]. *)
Lemma main_run_keys order d (key : list ascii) (stdin : list byte) (ks : list Z) :
  main_keys order key = Ok (Some (Some <$> ks), Z.of_nat (length ks)) →
  Z.of_nat (length stdin) < 2 ^ 61 →
  main_run order d key stdin
  = ('(data, _) ← (if d =? 0
                    then Encrypt stdin (Z.of_nat (length stdin)) ks
                           (Z.of_nat (length ks)) seed_init
                    else Decrypt stdin (Z.of_nat (length stdin)) ks
                           (Z.of_nat (length ks)) seed_init);
     out ← main_print data (Z.of_nat (length stdin));
     Ok (EXIT_SUCCESS, out)).
Proof.
  intros Hkeys Hmax. unfold main_run. rewrite Hkeys. cbn [mbind result_bind].
  change (malloc_cells 1 (1000 * 1))
    with (Some ((Some <$> @nil byte) ++ replicate 1000 (@None byte))).
  destruct (main_read_all stdin [] 1000 1000) as (m' & Hread);
    [done|lia|cbn [length]; lia|].
  change (Z.of_nat (length (@nil byte))) with 0 in Hread.
  rewrite Hread. cbn [mbind result_bind app].
  rewrite <- (app_nil_r (Some <$> ks)).
  change (@nil (option Z)) with (replicate 0 (@None Z)).
  rewrite block_prefix_written. cbn [mbind result_bind].
  rewrite block_prefix_written. reflexivity.
Qed.

(** ** Statements *)

(** X3.  On every buffer that is not empty, [Shuffle] from the same seed
    restores what [DeShuffle] rearranged. *)
Theorem Shuffle_after_DeShuffle (data : list byte) len seed :
  1 ≤ len ≤ MAX_LEN → Z.of_nat (length data) = len →
  ∃ data' seed',
    DeShuffle data len seed = Ok (data', seed')
    ∧ Shuffle data' len seed = Ok (data, seed').
Proof.
  intros Hlen Hd.
  destruct (DeShuffle_then_Shuffle data len seed Hlen Hd) as (d & S1 & _ & S2).
  by exists d, (seed_after (Z.to_nat (len - 1)) seed).
Qed.

(** X4.  On every buffer, the empty one included, [DeCode] from the same
    seed restores what [Code] masked, and [Code] restores what [DeCode]
    unmasked. *)
Theorem Code_DeCode_inverse (data : list byte) len seed :
  Z.of_nat (length data) = len → len < 2 ^ 64 →
  (∃ data' seed', Code data len seed = Ok (data', seed')
                  ∧ DeCode data' len seed = Ok (data, seed'))
  ∧ (∃ data' seed', DeCode data len seed = Ok (data', seed')
                    ∧ Code data' len seed = Ok (data, seed')).
Proof.
  intros Hd Hmax. split.
  - destruct (Code_then_DeCode data len seed Hd Hmax) as (d & C1 & _ & C2).
    by exists d, (seed_after (length data) seed).
  - destruct (DeCode_then_Code data len seed Hd Hmax) as (d & C1 & _ & C2).
    by exists d, (seed_after (length data) seed).
Qed.

(** X5.  On every buffer that is not empty and for every key list,
    [Encrypt] after [Decrypt] returns the buffer [Decrypt] was given,
    whatever the seed in between. *)
Theorem Encrypt_after_Decrypt (data : list byte) len (keys : list Z) kn seed :
  1 ≤ len ≤ MAX_LEN → Z.of_nat (length data) = len →
  Z.of_nat (length keys) = kn → kn < 2 ^ 64 →
  ∃ data' seed',
    Decrypt data len keys kn seed = Ok (data', seed')
    ∧ ∀ seed2, ∃ seed3, Encrypt data' len keys kn seed2 = Ok (data, seed3).
Proof.
  intros Hlen Hd Hk Hkn.
  destruct (Encrypt_Decrypt_nonempty data len keys kn seed Hlen Hd Hk Hkn)
    as (d & s & H1 & _ & H2).
  by exists d, s.
Qed.

(** X6.  On every buffer that is not empty and for every key list,
    [Encrypt] and [Decrypt] complete without an error (no division by
    zero, no access outside the buffer, the table or the keys) and return
    a buffer of the length they were given. *)
Theorem Encrypt_Decrypt_complete (data : list byte) len (keys : list Z) kn seed :
  1 ≤ len ≤ MAX_LEN → Z.of_nat (length data) = len →
  Z.of_nat (length keys) = kn → kn < 2 ^ 64 →
  (∃ data' seed', Encrypt data len keys kn seed = Ok (data', seed')
                  ∧ length data' = length data)
  ∧ (∃ data' seed', Decrypt data len keys kn seed = Ok (data', seed')
                    ∧ length data' = length data).
Proof.
  intros Hlen Hd Hk Hkn. split.
  - destruct (Decrypt_Encrypt_nonempty data len keys kn seed Hlen Hd Hk Hkn)
      as (d & s & H1 & H2 & _). by exists d, s.
  - destruct (Encrypt_Decrypt_nonempty data len keys kn seed Hlen Hd Hk Hkn)
      as (d & s & H1 & H2 & _). by exists d, s.
Qed.

(** X7.  With at least one key, what [Encrypt] and [Decrypt] return (the
    buffer, the seed they leave, or the error) does not depend on the
    value the global seed has when they are called. *)
Theorem Encrypt_Decrypt_ignore_seed (data : list byte) len (keys : list Z)
    kn seed1 seed2 :
  1 ≤ kn →
  Encrypt data len keys kn seed1 = Encrypt data len keys kn seed2
  ∧ Decrypt data len keys kn seed1 = Decrypt data len keys kn seed2.
Proof.
  intros Hkn. unfold Encrypt, Decrypt.
  destruct (Z.to_nat kn) as [|fuel] eqn:Hfuel; [lia|].
  cbn [for_up for_postdec].
  replace (0 <? kn) with true by (symmetry; apply Z.ltb_lt; lia).
  replace (kn =? 0) with false by (symmetry; apply Z.eqb_neq; lia).
  split; reflexivity.
Qed.

(** X8.  Every value [random()] returns is in [[0, RAND_MAX]], and the
    seed it leaves is a 32-bit value, whatever the seed it starts
    from. *)
Theorem random_bounds seed :
  0 ≤ fst (random seed) ≤ RAND_MAX ∧ 0 ≤ snd (random seed) < 2 ^ 32.
Proof.
  rewrite random_unfold. cbn [fst snd]. unfold RAND_MAX.
  pose proof (schrage_range (replace_zero_seed seed)).
  pose proof (Z.mod_pos_bound (schrage (replace_zero_seed seed)) 65535).
  lia.
Qed.

(** X9.  [HexToUInt32] at a position inside the string returns a 32-bit
    value when the 8 characters from that position exist and are all
    hexadecimal digits; in every other case (a character that is not a
    hexadecimal digit, or fewer than 8 characters before the terminator)
    it stops with "Unsupported character in key" and reads nothing
    beyond the terminator. *)
Theorem HexToUInt32_accepts order (str : list ascii) start :
  0 ≤ start ≤ Z.of_nat (length str) → Z.of_nat (length str) < 2 ^ 31 →
  let group := take 8 (drop (Z.to_nat start) str) in
  let hex := length group = 8%nat
             ∧ Forall (λ c, is_Some (hex_digit_value c)) group in
  (hex → ∃ v, HexToUInt32 order str start = Ok v ∧ 0 ≤ v < 2 ^ 32)
  ∧ (¬ hex → HexToUInt32 order str start = Err BadKeyChar).
Proof.
  intros Hs Hmax group hex. split.
  - intros [Hl Hhex]. apply HexToUInt32_hex; [lia| |done|done].
    unfold group in Hl. rewrite length_take, length_drop in Hl. lia.
  - intros Hno. by apply HexToUInt32_nonhex.
Qed.

(** X10.  For a key whose length is a multiple of 8 (below [2^31]), the
    splitting loop of [main] returns [strlen / 8] subkeys, subkey [g]
    being [HexToUInt32] of the characters from [8*g], when every
    character is a hexadecimal digit, and stops with "Unsupported
    character in key" otherwise. *)
Theorem main_keys_split order (key : list ascii) :
  Z.of_nat (length key) mod 8 = 0 → Z.of_nat (length key) < 2 ^ 31 →
  let hex := Forall (λ c, is_Some (hex_digit_value c)) key in
  (hex → ∃ ks, main_keys order key
               = Ok (Some (Some <$> ks), Z.of_nat (length key) / 8)
               ∧ Z.of_nat (length ks) = Z.of_nat (length key) / 8
               ∧ ∀ g k, ks !! g = Some k →
                   HexToUInt32 order key (8 * Z.of_nat g) = Ok k)
  ∧ (¬ hex → main_keys order key = Err BadKeyChar).
Proof.
  intros Hmod Hmax hex. split.
  - intros Hhex. by apply main_keys_hex.
  - intros Hno. by apply main_keys_nonhex.
Qed.

(** X11.  The read loop of [main], started as [main] starts it, stores
    the whole input (every byte value, 255 included) without writing
    outside its block: it returns the number of bytes of the input and a
    block that begins with them. *)
Theorem main_read_stores_input (stdin : list byte) :
  Z.of_nat (length stdin) < 2 ^ 61 →
  ∃ data, main_read stdin (malloc_cells 1 (1000 * 1)) 1000 0
          = Ok (data, Z.of_nat (length stdin))
          ∧ block_prefix data (Z.of_nat (length stdin)) = Ok stdin.
Proof.
  intros Hmax.
  destruct (main_read_all stdin [] 1000 1000) as (m' & Hread);
    [done|lia|cbn [length]; lia|].
  eexists. split; [exact Hread|]. cbn [app]. apply block_prefix_written.
Qed.

(** X12.  [main] returns [EXIT_FAILURE], reads nothing and writes
    nothing to [stdout], unless its arguments are the program name and a
    key, or the program name, ["-d"] and a key, with a key whose length
    is a multiple of 8. *)
Theorem main_usage_error order (argv : list (list ascii)) (stdin : list byte) :
  (∀ p key, argv = [p; key] → strlen key mod 8 ≠ 0) →
  (∀ p key, argv = [p; ["-"; "d"]%char; key] → strlen key mod 8 ≠ 0) →
  main order argv stdin = Ok (EXIT_FAILURE, []).
Proof.
  intros H2 H3.
  destruct argv as [|p [|a [|key [|x rest]]]];
    try (by apply main_other_args).
  - rewrite main_two_args.
    by replace (strlen a mod 8 =? 0) with false
      by (symmetry; apply Z.eqb_neq; by apply (H2 p a)).
  - rewrite main_three_args. unfold streq.
    destruct (bool_decide_reflect (a = ["-"; "d"]%char)) as [->|Hne]; [|done].
    by replace (strlen key mod 8 =? 0) with false
      by (symmetry; apply Z.eqb_neq; by apply (H3 p key)).
Qed.

(** X13.  The program undoes itself: for a key of hexadecimal digits
    whose length is a multiple of 8 (the empty key included) and an input
    that is not empty, [main] with the key exits with [EXIT_SUCCESS] and
    writes as many bytes as it read, and [main] with ["-d"] and the same
    key on those bytes exits with [EXIT_SUCCESS] and writes the input. *)
Theorem main_round_trip order (p p' key : list ascii) (stdin : list byte) :
  Forall (λ c, is_Some (hex_digit_value c)) key →
  Z.of_nat (length key) mod 8 = 0 → Z.of_nat (length key) < 2 ^ 31 →
  1 ≤ Z.of_nat (length stdin) ≤ MAX_LEN →
  ∃ out, main order [p; key] stdin = Ok (EXIT_SUCCESS, out)
         ∧ length out = length stdin
         ∧ main order [p'; ["-"; "d"]%char; key] out = Ok (EXIT_SUCCESS, stdin).
Proof.
  intros Hhex Hmod Hmax Hlen. pose proof Hlen as Hlen'. unfold MAX_LEN in Hlen'.
  destruct (main_keys_hex order key Hhex Hmod Hmax) as (ks & Hks & Hl & _).
  rewrite <- Hl in Hks.
  assert (Hkn : Z.of_nat (length ks) < 2 ^ 64).
  { rewrite Hl. pose proof (Z.div_mod (Z.of_nat (length key)) 8). lia. }
  destruct (Decrypt_Encrypt_nonempty stdin (Z.of_nat (length stdin)) ks
              (Z.of_nat (length ks)) seed_init) as (out & s & He & Hlo & Hd);
    [done|done|done|done|].
  destruct (Hd seed_init) as (s3 & Hdec).
  exists out. rewrite main_two_args, main_three_args.
  change (streq ["-"; "d"]%char ["-"; "d"]%char) with true. cbv iota.
  rewrite strlen_length, Hmod by done. change (0 =? 0) with true. cbv iota.
  rewrite (main_run_keys order 0 key stdin ks Hks) by lia.
  rewrite (main_run_keys order 1 key out ks Hks) by lia.
  change (0 =? 0) with true. change (1 =? 0) with false. cbv iota.
  rewrite He. cbn [mbind result_bind].
  rewrite <- Hlo, main_print_all by lia. cbn [mbind result_bind].
  split; [done|]. split; [done|].
  rewrite Hlo, Hdec. cbn [mbind result_bind].
  by rewrite main_print_all by lia.
Qed.

(** X14.  With the empty key, which the argument check accepts, [main]
    writes its input unchanged and exits with [EXIT_SUCCESS], with and
    without ["-d"], also on an empty input. *)
Theorem main_empty_key order (p : list ascii) (stdin : list byte) :
  Z.of_nat (length stdin) < 2 ^ 61 →
  main order [p; []] stdin = Ok (EXIT_SUCCESS, stdin)
  ∧ main order [p; ["-"; "d"]%char; []] stdin = Ok (EXIT_SUCCESS, stdin).
Proof.
  intros Hmax. rewrite main_two_args, main_three_args.
  change (streq ["-"; "d"]%char ["-"; "d"]%char) with true.
  change (strlen [] mod 8 =? 0) with true. cbv iota.
  assert (Hks : main_keys order []
                = Ok (Some (Some <$> []), Z.of_nat (length (@nil Z))))
    by reflexivity.
  rewrite (main_run_keys order 0 [] stdin [] Hks) by lia.
  rewrite (main_run_keys order 1 [] stdin [] Hks) by lia.
  change (0 =? 0) with true. change (1 =? 0) with false. cbv iota.
  change (Encrypt stdin (Z.of_nat (length stdin)) [] (Z.of_nat (length (@nil Z)))
            seed_init) with (Ok (A := list byte * Z) (stdin, seed_init)).
  change (Decrypt stdin (Z.of_nat (length stdin)) [] (Z.of_nat (length (@nil Z)))
            seed_init) with (Ok (A := list byte * Z) (stdin, seed_init)).
  cbn [mbind result_bind]. by rewrite main_print_all by lia.
Qed.

(** X15.  On an empty input, with a key of hexadecimal digits whose
    length is a multiple of 8 and not 0, [main] does not exit: it divides
    by zero in the table of [Shuffle], or of [DeShuffle] with ["-d"]. *)
Theorem main_empty_input order (p key : list ascii) :
  Forall (λ c, is_Some (hex_digit_value c)) key →
  Z.of_nat (length key) mod 8 = 0 → 8 ≤ Z.of_nat (length key) < 2 ^ 31 →
  main order [p; key] [] = Err DivByZero
  ∧ main order [p; ["-"; "d"]%char; key] [] = Err DivByZero.
Proof.
  intros Hhex Hmod Hmax.
  destruct (main_keys_hex order key Hhex Hmod) as (ks & Hks & Hl & _); [lia|].
  rewrite <- Hl in Hks.
  assert (Hkn : 1 ≤ Z.of_nat (length ks) < 2 ^ 64).
  { rewrite Hl. pose proof (Z.div_mod (Z.of_nat (length key)) 8). lia. }
  rewrite main_two_args, main_three_args.
  change (streq ["-"; "d"]%char ["-"; "d"]%char) with true. cbv iota.
  rewrite strlen_length, Hmod by lia. change (0 =? 0) with true. cbv iota.
  rewrite (main_run_keys order 0 key [] ks Hks) by (cbn; lia).
  rewrite (main_run_keys order 1 key [] ks Hks) by (cbn; lia).
  change (0 =? 0) with true. change (1 =? 0) with false. cbv iota.
  change (Z.of_nat (length (@nil byte))) with 0.
  by rewrite Encrypt_0, Decrypt_0.
Qed.

(** X16.  With a key whose length is a multiple of 8 and which has a
    character that is not a hexadecimal digit, [main] stops with
    "Unsupported character in key" before it reads its input, with and
    without ["-d"]. *)
Theorem main_bad_key order (p key : list ascii) (stdin : list byte) :
  ¬ Forall (λ c, is_Some (hex_digit_value c)) key →
  Z.of_nat (length key) mod 8 = 0 → Z.of_nat (length key) < 2 ^ 31 →
  main order [p; key] stdin = Err BadKeyChar
  ∧ main order [p; ["-"; "d"]%char; key] stdin = Err BadKeyChar.
Proof.
  intros Hbad Hmod Hmax.
  rewrite main_two_args, main_three_args.
  change (streq ["-"; "d"]%char ["-"; "d"]%char) with true. cbv iota.
  rewrite strlen_length, Hmod by lia. change (0 =? 0) with true. cbv iota.
  unfold main_run. by rewrite main_keys_nonhex.
Qed.

(** X17.  The self-test exits with [EXIT_SUCCESS], whatever the value of
    the replacement constant; no byte of the encrypted text is 0, so
    [strlen] gives [Decrypt] the length [Encrypt] was given. *)
Theorem main_TEST_succeeds :
  main_TEST = Ok EXIT_SUCCESS
  ∧ ∃ enc seed, Encrypt test_text 27 test_keys 4 seed_init = Ok (enc, seed)
                ∧ before_nul enc = enc.
Proof. split; [vm_compute; reflexivity|]. do 2 eexists. split; vm_compute; reflexivity. Qed.

End Pesc.

(** * Instances

    The statements above at concrete inputs.  The replacement constant is
    given the value of the initialiser of line 28. *)

(** C4: on a little-endian target the key string ["10000000"] is the
    subkey 1: its first character, the digit 1, is the lowest-order 4
    bits of the subkey, and the highest-order 4 bits are 0. *)
Lemma HexToUInt32_little_endian_first_char :
  HexToUInt32 LittleEndian ["1"; "0"; "0"; "0"; "0"; "0"; "0"; "0"]%char 0 = Ok 1
  ∧ hex_digit_value "1" = Some 1
  ∧ Z.shiftr 1 28 ≠ 1.
Proof. repeat split. discriminate. Qed.

(** Key derivation on the second group of the key string
    ["FF12345612345678"], little-endian. *)
Lemma HexToUInt32_group_witness :
  0 ≤ 1
  ∧ 8 * 1 + 8 ≤ Z.of_nat (length
      ["F"; "F"; "1"; "2"; "3"; "4"; "5"; "6";
       "1"; "2"; "3"; "4"; "5"; "6"; "7"; "8"]%char)
  ∧ ∃ v, HexToUInt32 LittleEndian
           ["F"; "F"; "1"; "2"; "3"; "4"; "5"; "6";
            "1"; "2"; "3"; "4"; "5"; "6"; "7"; "8"]%char (8 * 1) = Ok v
         ∧ v = lsd_first [1; 2; 3; 4; 5; 6; 7; 8]
         ∧ ∀ d0, [1; 2; 3; 4; 5; 6; 7; 8] !! 0%nat = Some d0 → Z.land v 15 = d0.
Proof.
  split; [lia|]. split; [vm_compute; discriminate|].
  apply (HexToUInt32_group LittleEndian
           ["F"; "F"; "1"; "2"; "3"; "4"; "5"; "6";
            "1"; "2"; "3"; "4"; "5"; "6"; "7"; "8"]%char 1
           [1; 2; 3; 4; 5; 6; 7; 8]).
  - lia.
  - vm_compute; discriminate.
  - vm_compute; reflexivity.
  - repeat constructor.
Defined.

(** The zero-seed invariant at the constant [0xF1F2F3F4] and the seed 0. *)
Lemma zero_seed_replaced_witness :
  wrap32 0xF1F2F3F4 ≠ 0
  ∧ replace_zero_seed 0xF1F2F3F4 0 ≠ 0
  ∧ (0 = 0 → replace_zero_seed 0xF1F2F3F4 0 = wrap32 0xF1F2F3F4)
  ∧ (0 ≠ 0 → replace_zero_seed 0xF1F2F3F4 0 = 0)
  ∧ random 0xF1F2F3F4 0 = random 0xF1F2F3F4 (replace_zero_seed 0xF1F2F3F4 0)
  ∧ snd (random 0xF1F2F3F4 0) = schrage (replace_zero_seed 0xF1F2F3F4 0).
Proof.
  split; [vm_compute; discriminate|].
  apply (zero_seed_replaced 0xF1F2F3F4 0). vm_compute; discriminate.
Defined.

(** The exchange table for [n = 5] from the seed 1. *)
Lemma GenExchangeTable_entries_witness :
  1 ≤ 5 ≤ MAX_LEN
  ∧ ∃ E, GenExchangeTable 0xF1F2F3F4 5 1
         = Ok (Some (Some <$> E), seed_after 0xF1F2F3F4 (Z.to_nat (5 - 1)) 1)
         ∧ Z.of_nat (length E) = 5 - 1
         ∧ ∀ j : nat, Z.of_nat j < 5 - 1 →
             ∃ r e, draws 0xF1F2F3F4 (Z.to_nat (5 - 1)) 1 !! j = Some r
                    ∧ E !! j = Some e
                    ∧ e = r mod ((5 - 1 - Z.of_nat j) + 1)
                    ∧ 0 ≤ e ≤ 5 - 1 - Z.of_nat j.
Proof.
  assert (H : 1 ≤ 5 ≤ MAX_LEN) by (unfold MAX_LEN; lia).
  split; [exact H|]. apply (GenExchangeTable_entries 0xF1F2F3F4 5 1 H).
Defined.

(** [Shuffle] and [DeShuffle] rearrange a buffer of three bytes. *)
Lemma Shuffle_DeShuffle_permute_witness :
  1 ≤ 3 ≤ MAX_LEN
  ∧ Z.of_nat (length [x01; x02; x03]) = 3
  ∧ (∃ data' seed', Shuffle 0xF1F2F3F4 [x01; x02; x03] 3 1 = Ok (data', seed')
                    ∧ data' ≡ₚ [x01; x02; x03])
  ∧ (∃ data' seed', DeShuffle 0xF1F2F3F4 [x01; x02; x03] 3 1 = Ok (data', seed')
                    ∧ data' ≡ₚ [x01; x02; x03]).
Proof.
  assert (H : 1 ≤ 3 ≤ MAX_LEN) by (unfold MAX_LEN; lia).
  split; [exact H|]. split; [reflexivity|].
  apply (Shuffle_DeShuffle_permute 0xF1F2F3F4 [x01; x02; x03] 3 1 H).
  reflexivity.
Defined.

(** [Code] and [DeCode] on the two bytes of ["Hi"]. *)
Lemma Code_DeCode_masks_witness :
  Z.of_nat (length [x48; x69]) = 2
  ∧ 2 < 2 ^ 64
  ∧ let rs := draws 0xF1F2F3F4 (length [x48; x69]) 1 in
    Code 0xF1F2F3F4 [x48; x69] 2 1
    = Ok (zip_with (λ c r, char_of_Z (Z_of_char c + r mod 255)) [x48; x69] rs,
          seed_after 0xF1F2F3F4 (length [x48; x69]) 1)
    ∧ DeCode 0xF1F2F3F4 [x48; x69] 2 1
      = Ok (zip_with (λ c r, char_of_Z (Z_of_char c - r mod 255)) [x48; x69] rs,
            seed_after 0xF1F2F3F4 (length [x48; x69]) 1)
    ∧ Forall (λ r, 0 ≤ r mod 255 ≤ 254) rs
    ∧ ∀ z, 0 ≤ Z_of_char (char_of_Z z) < 256
           ∧ Z_of_char (char_of_Z z) = z mod 256.
Proof.
  split; [reflexivity|]. split; [lia|].
  apply (Code_DeCode_masks 0xF1F2F3F4 [x48; x69] 2 1); [reflexivity|lia].
Defined.

(** The empty buffer under the keys of the self-test. *)
Lemma empty_buffer_divides_by_zero_witness :
  Z.of_nat (length test_keys) = 4
  ∧ 1 ≤ 4 < 2 ^ 64
  ∧ Encrypt 0xF1F2F3F4 [] 0 test_keys 4 0 = Err DivByZero
  ∧ Decrypt 0xF1F2F3F4 [] 0 test_keys 4 0 = Err DivByZero.
Proof.
  split; [reflexivity|]. split; [lia|].
  apply (empty_buffer_divides_by_zero 0xF1F2F3F4 test_keys 4 0); [reflexivity|lia].
Defined.

(** The self-test of [main]: the text of line 140 comes back from the
    round trip under the keys of lines 144-147. *)
Example self_test :
  let org := [x48; x65; x6c; x6c; x6f; x20; x66; x72; x6f; x6d; x20; x45; x6e;
              x63; x72; x79; x70; x74; x69; x6f; x6e; x20; x48; x65; x6c; x6c;
              x21] in
  round_trip 0xF1F2F3F4 org 27 test_keys 4 0xF1F2F3F4 = Ok (org, 1020498649).
Proof. vm_compute. reflexivity. Qed.

(** * Instances of the further properties *)

(** X1 on the text and the keys of the self-test. *)
Lemma round_trip_nonempty_witness :
  1 ≤ 27 ≤ MAX_LEN
  ∧ Z.of_nat (length test_text) = 27
  ∧ Z.of_nat (length test_keys) = 4
  ∧ 4 < 2 ^ 64
  ∧ ∃ seed', round_trip 0xF1F2F3F4 test_text 27 test_keys 4 0 = Ok (test_text, seed').
Proof.
  assert (H : 1 ≤ 27 ≤ MAX_LEN) by (unfold MAX_LEN; lia).
  split; [exact H|]. split; [reflexivity|]. split; [reflexivity|]. split; [lia|].
  apply (round_trip_nonempty 0xF1F2F3F4 test_text 27 test_keys 4 0 H);
    [reflexivity|reflexivity|lia].
Defined.

(** X2 on the sample input. *)
Lemma DeShuffle_Shuffle_nonempty_witness :
  1 ≤ 4 ≤ MAX_LEN
  ∧ Z.of_nat (length sample_text) = 4
  ∧ ∃ data' seed',
      Shuffle 0xF1F2F3F4 sample_text 4 7 = Ok (data', seed')
      ∧ DeShuffle 0xF1F2F3F4 data' 4 7 = Ok (sample_text, seed').
Proof.
  assert (H : 1 ≤ 4 ≤ MAX_LEN) by (unfold MAX_LEN; lia).
  split; [exact H|]. split; [reflexivity|].
  apply (DeShuffle_Shuffle_nonempty 0xF1F2F3F4 sample_text 4 7 H). reflexivity.
Defined.

(** X3 on the sample input. *)
Lemma Shuffle_after_DeShuffle_witness :
  1 ≤ 4 ≤ MAX_LEN
  ∧ Z.of_nat (length sample_text) = 4
  ∧ ∃ data' seed',
      DeShuffle 0xF1F2F3F4 sample_text 4 7 = Ok (data', seed')
      ∧ Shuffle 0xF1F2F3F4 data' 4 7 = Ok (sample_text, seed').
Proof.
  assert (H : 1 ≤ 4 ≤ MAX_LEN) by (unfold MAX_LEN; lia).
  split; [exact H|]. split; [reflexivity|].
  apply (Shuffle_after_DeShuffle 0xF1F2F3F4 sample_text 4 7 H). reflexivity.
Defined.

(** X4 on the sample input. *)
Lemma Code_DeCode_inverse_witness :
  Z.of_nat (length sample_text) = 4
  ∧ 4 < 2 ^ 64
  ∧ (∃ data' seed', Code 0xF1F2F3F4 sample_text 4 7 = Ok (data', seed')
                    ∧ DeCode 0xF1F2F3F4 data' 4 7 = Ok (sample_text, seed'))
  ∧ (∃ data' seed', DeCode 0xF1F2F3F4 sample_text 4 7 = Ok (data', seed')
                    ∧ Code 0xF1F2F3F4 data' 4 7 = Ok (sample_text, seed')).
Proof.
  split; [reflexivity|]. split; [lia|].
  apply (Code_DeCode_inverse 0xF1F2F3F4 sample_text 4 7); [reflexivity|lia].
Defined.

(** X5 on the sample input and the keys of the self-test. *)
Lemma Encrypt_after_Decrypt_witness :
  1 ≤ 4 ≤ MAX_LEN
  ∧ Z.of_nat (length sample_text) = 4
  ∧ Z.of_nat (length test_keys) = 4
  ∧ 4 < 2 ^ 64
  ∧ ∃ data' seed',
      Decrypt 0xF1F2F3F4 sample_text 4 test_keys 4 0 = Ok (data', seed')
      ∧ ∀ seed2, ∃ seed3,
          Encrypt 0xF1F2F3F4 data' 4 test_keys 4 seed2 = Ok (sample_text, seed3).
Proof.
  assert (H : 1 ≤ 4 ≤ MAX_LEN) by (unfold MAX_LEN; lia).
  split; [exact H|]. split; [reflexivity|]. split; [reflexivity|]. split; [lia|].
  apply (Encrypt_after_Decrypt 0xF1F2F3F4 sample_text 4 test_keys 4 0 H);
    [reflexivity|reflexivity|lia].
Defined.

(** X6 on the sample input and the keys of the self-test. *)
Lemma Encrypt_Decrypt_complete_witness :
  1 ≤ 4 ≤ MAX_LEN
  ∧ Z.of_nat (length sample_text) = 4
  ∧ Z.of_nat (length test_keys) = 4
  ∧ 4 < 2 ^ 64
  ∧ (∃ data' seed',
       Encrypt 0xF1F2F3F4 sample_text 4 test_keys 4 0 = Ok (data', seed')
       ∧ length data' = length sample_text)
  ∧ (∃ data' seed',
       Decrypt 0xF1F2F3F4 sample_text 4 test_keys 4 0 = Ok (data', seed')
       ∧ length data' = length sample_text).
Proof.
  assert (H : 1 ≤ 4 ≤ MAX_LEN) by (unfold MAX_LEN; lia).
  split; [exact H|]. split; [reflexivity|]. split; [reflexivity|]. split; [lia|].
  apply (Encrypt_Decrypt_complete 0xF1F2F3F4 sample_text 4 test_keys 4 0 H);
    [reflexivity|reflexivity|lia].
Defined.

(** X7 on the sample input, from the seeds 0 and 1. *)
Lemma Encrypt_Decrypt_ignore_seed_witness :
  1 ≤ 4
  ∧ Encrypt 0xF1F2F3F4 sample_text 4 test_keys 4 0
    = Encrypt 0xF1F2F3F4 sample_text 4 test_keys 4 1
  ∧ Decrypt 0xF1F2F3F4 sample_text 4 test_keys 4 0
    = Decrypt 0xF1F2F3F4 sample_text 4 test_keys 4 1.
Proof.
  split; [lia|].
  apply (Encrypt_Decrypt_ignore_seed 0xF1F2F3F4 sample_text 4 test_keys 4 0 1).
  lia.
Defined.

(** X9 at the second group of the sample key. *)
Lemma HexToUInt32_accepts_witness :
  0 ≤ 8 ≤ Z.of_nat (length sample_key)
  ∧ Z.of_nat (length sample_key) < 2 ^ 31
  ∧ let group := take 8 (drop (Z.to_nat 8) sample_key) in
    let hex := length group = 8%nat
               ∧ Forall (λ c, is_Some (hex_digit_value c)) group in
    (hex → ∃ v, HexToUInt32 BigEndian sample_key 8 = Ok v ∧ 0 ≤ v < 2 ^ 32)
    ∧ (¬ hex → HexToUInt32 BigEndian sample_key 8 = Err BadKeyChar).
Proof.
  assert (H1 : 0 ≤ 8 ≤ Z.of_nat (length sample_key)) by (cbn; lia).
  assert (H2 : Z.of_nat (length sample_key) < 2 ^ 31) by (cbn; lia).
  split; [exact H1|]. split; [exact H2|].
  apply (HexToUInt32_accepts BigEndian sample_key 8 H1 H2).
Defined.

(** X10 on the sample key. *)
Lemma main_keys_split_witness :
  Z.of_nat (length sample_key) mod 8 = 0
  ∧ Z.of_nat (length sample_key) < 2 ^ 31
  ∧ let hex := Forall (λ c, is_Some (hex_digit_value c)) sample_key in
    (hex → ∃ ks, main_keys BigEndian sample_key
                 = Ok (Some (Some <$> ks), Z.of_nat (length sample_key) / 8)
                 ∧ Z.of_nat (length ks) = Z.of_nat (length sample_key) / 8
                 ∧ ∀ g k, ks !! g = Some k →
                     HexToUInt32 BigEndian sample_key (8 * Z.of_nat g) = Ok k)
    ∧ (¬ hex → main_keys BigEndian sample_key = Err BadKeyChar).
Proof.
  assert (H2 : Z.of_nat (length sample_key) < 2 ^ 31) by (cbn; lia).
  split; [reflexivity|]. split; [exact H2|].
  apply (main_keys_split BigEndian sample_key eq_refl H2).
Defined.

(** X11 on the sample input. *)
Lemma main_read_stores_input_witness :
  Z.of_nat (length sample_text) < 2 ^ 61
  ∧ ∃ data, main_read sample_text (malloc_cells 1 (1000 * 1)) 1000 0
            = Ok (data, Z.of_nat (length sample_text))
            ∧ block_prefix data (Z.of_nat (length sample_text)) = Ok sample_text.
Proof.
  assert (H : Z.of_nat (length sample_text) < 2 ^ 61) by (cbn; lia).
  split; [exact H|]. apply (main_read_stores_input sample_text H).
Defined.

(** X12 with the program name as the only argument. *)
Lemma main_usage_error_witness :
  (∀ p key, [sample_prog] = [p; key] → strlen key mod 8 ≠ 0)
  ∧ (∀ p key, [sample_prog] = [p; ["-"; "d"]%char; key] → strlen key mod 8 ≠ 0)
  ∧ main 0xF1F2F3F4 LittleEndian [sample_prog] sample_text = Ok (EXIT_FAILURE, []).
Proof.
  assert (H2 : ∀ p key : list ascii, [sample_prog] = [p; key] → strlen key mod 8 ≠ 0)
    by (intros p key H; discriminate H).
  assert (H3 : ∀ p key : list ascii,
            [sample_prog] = [p; ["-"; "d"]%char; key] → strlen key mod 8 ≠ 0)
    by (intros p key H; discriminate H).
  split; [exact H2|]. split; [exact H3|].
  apply (main_usage_error 0xF1F2F3F4 LittleEndian [sample_prog] sample_text H2 H3).
Defined.

(** X13 on the sample key and input. *)
Lemma main_round_trip_witness :
  Forall (λ c, is_Some (hex_digit_value c)) sample_key
  ∧ Z.of_nat (length sample_key) mod 8 = 0
  ∧ Z.of_nat (length sample_key) < 2 ^ 31
  ∧ 1 ≤ Z.of_nat (length sample_text) ≤ MAX_LEN
  ∧ ∃ out, main 0xF1F2F3F4 LittleEndian [sample_prog; sample_key] sample_text
           = Ok (EXIT_SUCCESS, out)
           ∧ length out = length sample_text
           ∧ main 0xF1F2F3F4 LittleEndian
               [sample_prog; ["-"; "d"]%char; sample_key] out
             = Ok (EXIT_SUCCESS, sample_text).
Proof.
  assert (H1 : Forall (λ c, is_Some (hex_digit_value c)) sample_key)
    by (unfold sample_key;
        repeat (apply List.Forall_cons; [eexists; reflexivity|]);
        apply List.Forall_nil).
  assert (H3 : Z.of_nat (length sample_key) < 2 ^ 31) by (cbn; lia).
  assert (H4 : 1 ≤ Z.of_nat (length sample_text) ≤ MAX_LEN)
    by (unfold MAX_LEN; cbn; lia).
  split; [exact H1|]. split; [reflexivity|]. split; [exact H3|]. split; [exact H4|].
  apply (main_round_trip 0xF1F2F3F4 LittleEndian sample_prog sample_prog
           sample_key sample_text H1 eq_refl H3 H4).
Defined.

(** X14 on the sample input. *)
Lemma main_empty_key_witness :
  Z.of_nat (length sample_text) < 2 ^ 61
  ∧ main 0xF1F2F3F4 LittleEndian [sample_prog; []] sample_text
    = Ok (EXIT_SUCCESS, sample_text)
  ∧ main 0xF1F2F3F4 LittleEndian [sample_prog; ["-"; "d"]%char; []] sample_text
    = Ok (EXIT_SUCCESS, sample_text).
Proof.
  assert (H : Z.of_nat (length sample_text) < 2 ^ 61) by (cbn; lia).
  split; [exact H|].
  apply (main_empty_key 0xF1F2F3F4 LittleEndian sample_prog sample_text H).
Defined.

(** X15 with the sample key. *)
Lemma main_empty_input_witness :
  Forall (λ c, is_Some (hex_digit_value c)) sample_key
  ∧ Z.of_nat (length sample_key) mod 8 = 0
  ∧ 8 ≤ Z.of_nat (length sample_key) < 2 ^ 31
  ∧ main 0xF1F2F3F4 LittleEndian [sample_prog; sample_key] [] = Err DivByZero
  ∧ main 0xF1F2F3F4 LittleEndian [sample_prog; ["-"; "d"]%char; sample_key] []
    = Err DivByZero.
Proof.
  assert (H1 : Forall (λ c, is_Some (hex_digit_value c)) sample_key)
    by (unfold sample_key;
        repeat (apply List.Forall_cons; [eexists; reflexivity|]);
        apply List.Forall_nil).
  assert (H3 : 8 ≤ Z.of_nat (length sample_key) < 2 ^ 31) by (cbn; lia).
  split; [exact H1|]. split; [reflexivity|]. split; [exact H3|].
  apply (main_empty_input 0xF1F2F3F4 LittleEndian sample_prog sample_key
           H1 eq_refl H3).
Defined.

(** X16 with a key that ends in the letter G. *)
Lemma main_bad_key_witness :
  ¬ Forall (λ c, is_Some (hex_digit_value c)) sample_bad_key
  ∧ Z.of_nat (length sample_bad_key) mod 8 = 0
  ∧ Z.of_nat (length sample_bad_key) < 2 ^ 31
  ∧ main 0xF1F2F3F4 LittleEndian [sample_prog; sample_bad_key] sample_text
    = Err BadKeyChar
  ∧ main 0xF1F2F3F4 LittleEndian
      [sample_prog; ["-"; "d"]%char; sample_bad_key] sample_text
    = Err BadKeyChar.
Proof.
  assert (H1 : ¬ Forall (λ c, is_Some (hex_digit_value c)) sample_bad_key).
  { intros H. rewrite Forall_forall in H.
    destruct (H "G"%char) as [d Hd]; [|discriminate Hd].
    unfold sample_bad_key. do 7 apply list_elem_of_further. apply list_elem_of_here. }
  assert (H3 : Z.of_nat (length sample_bad_key) < 2 ^ 31) by (cbn; lia).
  split; [exact H1|]. split; [reflexivity|]. split; [exact H3|].
  apply (main_bad_key 0xF1F2F3F4 LittleEndian sample_prog sample_bad_key
           sample_text H1 eq_refl H3).
Defined.
